(** * RedisSession: the record codecs and the session store of
    [src/RedisSession.ts], embedded as executable Rocq definitions.

    Layout of the development:
    - [Js]        : the few JavaScript values and coercions the code relies on;
    - [Raws]      : the primitive codec ([Raws.Primitive.*], [Raws.BytesIO]);
    - [Codec]     : [buildBytesFromPeer], [buildPeerFromBytes],
                    [buildBytesFromSecretChat], [buildSecretChatFromBytes];
    - [Legacy]    : the previous revision of the peer encoder;
    - [Session]   : the [RedisSession] class over a finite-map model of Redis;
    - theorems about each of them. *)

From Stdlib Require Import ZArith List String Ascii Bool Lia.
From Stdlib Require Import Strings.Byte.
From Stdlib Require Import Floats.SpecFloat.
From stdpp Require Import base option list strings gmap pretty.

Local Open Scope Z_scope.

(** ** Exceptions and the error monad *)

Inductive error : Type :=
  | RangeError   (* Buffer read/write outside the buffer or the value range *)
  | TypeError.   (* wrong kind of value: not iterable, not a string, ... *)

Inductive result (A : Type) : Type :=
  | Ok (a : A)
  | Throw (e : error).
Arguments Ok {A} a.
Arguments Throw {A} e.

#[global] Instance result_ret : MRet result := @Ok.
#[global] Instance result_bind : MBind result := λ A B f m,
  match m with Ok a => f a | Throw e => Throw e end.
#[global] Instance result_fmap : FMap result := λ A B f m,
  match m with Ok a => Ok (f a) | Throw e => Throw e end.

(** ** Bytes *)

#[global] Instance byte_eq_decision : EqDecision byte := Byte.byte_eq_dec.

Definition byte_of_Z (z : Z) : byte :=
  default "000"%byte (Byte.of_N (Z.to_N (z mod 256))).

Definition Z_of_byte (b : byte) : Z := Z.of_N (Byte.to_N b).

(** [n] bytes of [z], least significant first (two's complement for
    negative [z], since [/] and [mod] round towards minus infinity). *)
Fixpoint le_bytes (n : nat) (z : Z) : list byte :=
  match n with
  | O => []
  | S n' => byte_of_Z z :: le_bytes n' (z / 256)
  end.

Fixpoint le_value (bs : list byte) : Z :=
  match bs with
  | [] => 0
  | b :: bs' => Z_of_byte b + 256 * le_value bs'
  end.

Definition zeros (n : Z) : list byte := replicate (Z.to_nat n) "000"%byte.

(** ** JavaScript values *)

Module Js.

(** The values that flow through [RedisSession.ts]. A promise is modelled
    by the value it settles to; an async generator by the keys it yields. *)
Inductive value : Type :=
  | JUndefined
  | JNull
  | JBool (b : bool)
  | JNum (n : Z)
  | JBigInt (n : Z)
  | JStr (s : string)
  | JArr (l : list string)
  | JPromise (settles_to : value)
  | JAsyncGenerator (yields : list string).

(** ToBoolean. *)
Definition truthy (v : value) : bool :=
  match v with
  | JUndefined | JNull => false
  | JBool b => b
  | JNum n | JBigInt n => negb (n =? 0)
  | JStr s => negb (String.eqb s "")
  | JArr _ | JPromise _ | JAsyncGenerator _ => true
  end.

(** [await v]. *)
Definition await (v : value) : value :=
  match v with
  | JPromise x => x
  | _ => v
  end.

(** [a ?? b]. *)
Definition nullish (a b : value) : value :=
  match a with
  | JUndefined | JNull => b
  | _ => a
  end.

(** [a === b] on the values compared with it in the source (numbers and
    [undefined]); objects are never identical to a fresh operand. *)
Definition strict_eq (a b : value) : bool :=
  match a, b with
  | JUndefined, JUndefined | JNull, JNull => true
  | JBool x, JBool y => Bool.eqb x y
  | JNum x, JNum y | JBigInt x, JBigInt y => x =? y
  | JStr x, JStr y => String.eqb x y
  | _, _ => false
  end.

(** [String(v)] for the scalars that are stringified. A number is carried
    by its integer value and shown as its decimal numeral: that is what
    JavaScript prints for the integers of the safe range,
    [|n| <= 2^53 - 1] (from [1e21] on it prints an exponent form).
    Statements about the string of a number are made on that range. *)
Definition String_ (v : value) : string :=
  match v with
  | JUndefined => "undefined"
  | JNull => "null"
  | JBool true => "true"
  | JBool false => "false"
  | JNum n | JBigInt n => pretty n
  | JStr s => s
  | JArr l => fold_right (λ s acc, if String.eqb acc "" then s else s +:+ "," +:+ acc) "" l
  | JPromise _ => "[object Promise]"
  | JAsyncGenerator _ => "[object AsyncGenerator]"
  end.

Definition lower_ascii (c : ascii) : ascii :=
  let n := N_of_ascii c in
  if ((65 <=? n) && (n <=? 90))%N then ascii_of_N (n + 32) else c.

(** [s.toLowerCase()], on the ASCII letters. *)
Fixpoint toLowerCase (s : string) : string :=
  match s with
  | EmptyString => EmptyString
  | String c s' => String (lower_ascii c) (toLowerCase s')
  end.

(** [s.startsWith(p)]. *)
Definition startsWith (s p : string) : bool := String.prefix p s.

(** [l.includes(x)] on an array of strings. *)
Definition includes (l : list string) (x : string) : bool :=
  existsb (String.eqb x) l.

Definition hex_digit (n : N) : ascii :=
  if (n <? 10)%N then ascii_of_N (48 + n) else ascii_of_N (87 + n).

(** [buf.toString('hex')]. *)
Fixpoint toString_hex (bs : list byte) : string :=
  match bs with
  | [] => EmptyString
  | b :: bs' =>
      let n := Byte.to_N b in
      String (hex_digit (n / 16)) (String (hex_digit (n mod 16)) (toString_hex bs'))
  end.

Definition hex_value (c : ascii) : option N :=
  let n := N_of_ascii c in
  if ((48 <=? n) && (n <=? 57))%N then Some (n - 48)%N
  else if ((97 <=? n) && (n <=? 102))%N then Some (n - 87)%N
  else if ((65 <=? n) && (n <=? 70))%N then Some (n - 55)%N
  else None.

(** The bytes of a hex string; decoding stops at the first pair that is
    not two hex digits. *)
Fixpoint hex_bytes (s : string) : list byte :=
  match s with
  | String h (String l s') =>
      match hex_value h, hex_value l with
      | Some a, Some b => byte_of_Z (Z.of_N (16 * a + b)) :: hex_bytes s'
      | _, _ => []
      end
  | _ => []
  end.

(** [Buffer.from(v, 'hex')]: a string is decoded; a promise (an object with
    neither length nor primitive value) is rejected with a TypeError. *)
Definition Buffer_from_hex (v : value) : result (list byte) :=
  match v with
  | JStr s => Ok (hex_bytes s)
  | _ => Throw TypeError
  end.

End Js.

(** ** The primitive codec *)

Module Raws.

(** The primitive codec ([Raws.Primitive.*] and [Raws.BytesIO] of the core
    package) is an external dependency of [RedisSession.ts]. It is modelled
    as the TL serialization it implements: fixed-width little-endian
    integers whose writers reject values outside their range,
    length-prefixed byte strings padded to a multiple of four, booleans as
    constructor numbers, vectors as constructor number, count and elements,
    and [Float] as an IEEE-754 single written through [writeFloatLE]. *)

(** Modelled from the spec: [Raws.BytesIO] opened on a buffer, as the bytes
    after its cursor; a read answers a value and the bytes left, or throws. *)
Definition reader (A : Type) : Type := list byte → result (A * list byte).

#[global] Instance reader_ret : MRet reader := λ A a bs, Ok (a, bs).
#[global] Instance reader_bind : MBind reader := λ A B f m bs,
  match m bs with
  | Ok (a, bs') => f a bs'
  | Throw e => Throw e
  end.

(** [new BytesIO(bytes)] followed by the reads of [m]. *)
Definition run {A} (m : reader A) (bytes : list byte) : result A :=
  fst <$> m bytes.

(** Modelled from the spec: [data.read(n)] of [Raws.BytesIO], a slice,
    shorter than [n] at the end of the buffer. *)
Definition BytesIO_read (n : Z) : reader (list byte) := λ bs,
  Ok (take (Z.to_nat n) bs, drop (Z.to_nat n) bs).

(** Modelled from the spec: a fixed-width read of [Raws.BytesIO]
    ([readInt32LE] and the like), which needs all its bytes. *)
Definition read_fixed (n : nat) : reader (list byte) := λ bs,
  if (length bs <? n)%nat then Throw RangeError
  else Ok (take n bs, drop n bs).

Definition to_signed (bits : Z) (u : Z) : Z :=
  if u <? 2 ^ (bits - 1) then u else u - 2 ^ bits.

(** Modelled from the spec: [Raws.Primitive.Int], four bytes, least
    significant first; signed unless asked otherwise. *)
Module Int.
Definition SIZE : nat := 4.
Definition write (value : Z) : result (list byte) :=
  if (- 2 ^ 31 <=? value) && (value <? 2 ^ 31)
  then Ok (le_bytes SIZE value) else Throw RangeError.
Definition write_unsigned (value : Z) : result (list byte) :=
  if (0 <=? value) && (value <? 2 ^ 32)
  then Ok (le_bytes SIZE value) else Throw RangeError.
Definition read : reader Z :=
  bs ← read_fixed SIZE; mret (to_signed 32 (le_value bs)).
Definition read_unsigned : reader Z :=
  bs ← read_fixed SIZE; mret (le_value bs).
End Int.

(** Modelled from the spec: [Raws.Primitive.Long], eight bytes, signed. *)
Module Long.
Definition SIZE : nat := 8.
Definition write (value : Z) : result (list byte) :=
  if (- 2 ^ 63 <=? value) && (value <? 2 ^ 63)
  then Ok (le_bytes SIZE value) else Throw RangeError.
Definition read : reader Z :=
  bs ← read_fixed SIZE; mret (to_signed 64 (le_value bs)).
End Long.

(** Modelled from the spec: [Raws.Primitive.Bool], the constructor number
    of [boolTrue] or [boolFalse]. *)
Module Bool.
Definition BoolTrue_ID : Z := 0x997275b5.
Definition BoolFalse_ID : Z := 0xbc799737.
Definition write (value : bool) : result (list byte) :=
  Int.write_unsigned (if value then BoolTrue_ID else BoolFalse_ID).
Definition read : reader bool :=
  id ← Int.read_unsigned; mret (id =? BoolTrue_ID).
End Bool.

(** Modelled from the spec: [Raws.Primitive.Bytes], a length prefix of one
    byte (up to 253) or of the byte 254 and three length bytes, the bytes,
    and zero padding to a multiple of four. *)
Module Bytes.
Definition write (value : list byte) : list byte :=
  let length := Z.of_nat (length value) in
  if length <=? 253
  then [byte_of_Z length] ++ value ++ zeros ((- (length + 1)) mod 4)
  else ["254"%byte] ++ le_bytes 3 length ++ value ++ zeros ((- length) mod 4).
Definition read : reader (list byte) :=
  first ← read_fixed 1;
  let length := le_value first in
  if length <=? 253 then
    x ← BytesIO_read length;
    _ ← BytesIO_read ((- (length + 1)) mod 4);
    mret x
  else
    l3 ← read_fixed 3;
    let length := le_value l3 in
    x ← BytesIO_read length;
    _ ← BytesIO_read ((- length) mod 4);
    mret x.
End Bytes.

(** Modelled from the spec: [Raws.Primitive.String], the [Bytes] of the
    UTF-8 encoding; a string is held here as its UTF-8 bytes. *)
Module String.
Definition write (value : string) : result (list byte) :=
  Ok (Bytes.write (list_byte_of_string value)).
Definition read : reader string :=
  x ← Bytes.read; mret (string_of_list_byte x).
End String.

(** Modelled from the spec: [Raws.Primitive.Vector.write], the constructor
    number, the count, then each item written by [tl]. *)
Module Vector.
Definition ID : Z := 0x1cb5c415.
Fixpoint write_items {A} (tl : A → result (list byte)) (value : list A)
  : result (list byte) :=
  match value with
  | [] => Ok []
  | i :: rest =>
      b ← tl i; bs ← write_items tl rest; mret (b ++ bs)
  end.
Definition write {A} (value : list A) (tl : A → result (list byte))
  : result (list byte) :=
  id ← Int.write_unsigned ID;
  n ← Int.write (Z.of_nat (length value));
  items ← write_items tl value;
  mret (id ++ n ++ items).
End Vector.

(** A JavaScript number: an IEEE-754 double, as its canonical
    sign/mantissa/exponent triple. *)
Definition number : Type := spec_float.

(** Modelled from the spec: [Raws.Primitive.Float], the four bytes of the
    IEEE-754 single nearest to the number ([writeFloatLE]), read back as a
    double ([readFloatLE]). *)
Module Float.
Definition sign_bit (s : bool) : Z := if s then 2 ^ 31 else 0.

(** The 32 bits of the single nearest to [x]. *)
Definition bits (x : number) : Z :=
  let single :=
    match x with
    | S754_finite s m e => binary_round 24 128 s m e
    | _ => x
    end in
  match single with
  | S754_zero s => sign_bit s
  | S754_infinity s => sign_bit s + 0x7f800000
  | S754_nan => 0x7fc00000
  | S754_finite s m e =>
      sign_bit s +
      (if Z.pos m <? 2 ^ 23 then Z.pos m
       else (e + 150) * 2 ^ 23 + (Z.pos m - 2 ^ 23))
  end.

(** The double equal to the single with bits [u]. *)
Definition of_bits (u : Z) : number :=
  let s := 2 ^ 31 <=? u in
  let E := (u / 2 ^ 23) mod 256 in
  let f := u mod 2 ^ 23 in
  if E =? 255 then (if f =? 0 then S754_infinity s else S754_nan)
  else if E =? 0 then
    match f with
    | Z.pos m => binary_round 53 1024 s m (-149)
    | _ => S754_zero s
    end
  else
    match f + 2 ^ 23 with
    | Z.pos m => binary_round 53 1024 s m (E - 150)
    | _ => S754_nan
    end.

Definition encode (value : number) : list byte := le_bytes 4 (bits value).
Definition decode (bs : list byte) : number := of_bits (le_value bs).

Definition write (value : number) : result (list byte) :=
  Ok (encode value).
Definition read : reader number :=
  bs ← read_fixed 4; mret (decode bs).

(** [value] is a single: the four bytes written for it read back as
    [value] itself. *)
Definition exact (value : number) : Prop :=
  decode (encode value) = value.
End Float.

End Raws.

(** ** The host framework's storage types *)

Module Storages.

(** Modelled from the spec: the [SecretChat] class of the core package is
    not part of the sources. Its fields are those the codec reads and
    writes; the four optional ones are unset until assigned. *)
Record SecretChat : Type := {
  id : Z;
  accessHash : Z;
  isAdmin : bool;
  authKey : list byte;
  mtproto : Z;
  layer : Z;
  inSeqNo : Z;
  outSeqNo : Z;
  inSeqNoX : Z;
  outSeqNoX : Z;
  timeRekey : Z;
  created : Raws.number;
  changed : Raws.number;
  rekeyStep : option Z;
  rekeyExchange : option Z;
  adminId : option Z;
  ttl : option Z
}.

(** Modelled from the spec: the result of
    [Storages.getInputPeer(id, accessHash, type)], which is external, kept
    as the triple it resolves to. *)
Record InputPeer : Type := {
  input_id : Js.value;
  input_accessHash : Js.value;
  input_type : Js.value
}.
(** Modelled from the spec: [Storages.getInputPeer], as the constructor of
    that triple. *)
Definition getInputPeer (id accessHash type : Js.value) : InputPeer :=
  {| input_id := id; input_accessHash := accessHash; input_type := type |}.

End Storages.

(** ** The record codecs *)

Module Codec.
Import Raws Js Storages.

(** The peer tuple
    [[id, accessHash, type, username?, phoneNumber?]]. *)
Record Peer : Type := {
  peer_id : Z;                            (* peer[0] *)
  peer_accessHash : Z;                    (* peer[1] *)
  peer_type : string;                     (* peer[2] *)
  peer_username : option (list string);   (* peer[3] *)
  peer_phoneNumber : option string        (* peer[4] *)
}.

(** [peer[3] && peer[3].length] *)
Definition has_usernames (peer : Peer) : bool :=
  match peer_username peer with
  | Some l => negb (length l =? 0)%nat
  | None => false
  end.

(** [peer[4]] as a condition *)
Definition has_phoneNumber (peer : Peer) : bool :=
  match peer_phoneNumber peer with
  | Some s => negb (String.eqb s "")
  | None => false
  end.

(** [flags & (1 << k)] as a condition *)
Definition flag (flags : Z) (k : Z) : bool :=
  negb (Z.land flags (Z.shiftl 1 k) =? 0).

Definition buildBytesFromPeer (peer : Peer) : result (list byte) :=
  let bytes : list byte := [] in
  let flags := 0 in
  let flags := if has_usernames peer then Z.lor flags (Z.shiftl 1 4) else flags in
  let flags := if has_phoneNumber peer then Z.lor flags (Z.shiftl 1 5) else flags in
  b ← Int.write flags; let bytes := bytes ++ b in
  b ← Long.write (peer_id peer); let bytes := bytes ++ b in
  b ← Long.write (peer_accessHash peer); let bytes := bytes ++ b in
  b ← String.write (peer_type peer); let bytes := bytes ++ b in
  bytes ← (if has_usernames peer
           then b ← Vector.write (default [] (peer_username peer)) String.write;
                mret (bytes ++ b)
           else mret bytes);
  bytes ← (if has_phoneNumber peer
           then b ← String.write (default ""%string (peer_phoneNumber peer));
                mret (bytes ++ b)
           else mret bytes);
  mret (["002"%byte] ++ bytes).

(** The reads of one branch of [buildPeerFromBytes]; [wrap] is what is
    pushed for the username read on bit 4. *)
Definition read_peer (wrap : string → value) : reader (list value) :=
  let results : list value := [] in
  flags ← Int.read;
  x ← Long.read; let results := results ++ [JBigInt x] in
  x ← Long.read; let results := results ++ [JBigInt x] in
  x ← String.read; let results := results ++ [JStr x] in
  results ← (if flag flags 4
             then x ← String.read; mret (results ++ [wrap x])
             else mret results);
  results ← (if flag flags 5
             then x ← String.read; mret (results ++ [JStr x])
             else mret results);
  mret results.

Definition buildPeerFromBytes (bytes : list byte) : result (list value) :=
  if decide (head bytes = Some "002"%byte)
  then run (read_peer JStr) (drop 1 bytes)
  else run (read_peer (λ x, JArr [x])) bytes.

(** A secret chat's optional field as a condition:
    [undefined] and zero are falsy. *)
Definition present (field : option Z) : bool :=
  match field with
  | Some n => negb (n =? 0)
  | None => false
  end.

Definition buildBytesFromSecretChat (secretChat : SecretChat) : result (list byte) :=
  let bytes : list byte := [] in
  let flags := 0 in
  let flags := if present (rekeyStep secretChat) then Z.lor flags (Z.shiftl 1 3) else flags in
  let flags := if present (rekeyExchange secretChat) then Z.lor flags (Z.shiftl 1 4) else flags in
  let flags := if present (adminId secretChat) then Z.lor flags (Z.shiftl 1 5) else flags in
  let flags := if present (ttl secretChat) then Z.lor flags (Z.shiftl 1 6) else flags in
  b ← Int.write flags; let bytes := bytes ++ b in
  b ← Int.write (id secretChat); let bytes := bytes ++ b in
  b ← Long.write (accessHash secretChat); let bytes := bytes ++ b in
  b ← Bool.write (isAdmin secretChat); let bytes := bytes ++ b in
  let bytes := bytes ++ Bytes.write (authKey secretChat) in
  b ← Int.write (mtproto secretChat); let bytes := bytes ++ b in
  b ← Int.write (layer secretChat); let bytes := bytes ++ b in
  b ← Int.write (inSeqNo secretChat); let bytes := bytes ++ b in
  b ← Int.write (outSeqNo secretChat); let bytes := bytes ++ b in
  b ← Int.write (inSeqNoX secretChat); let bytes := bytes ++ b in
  b ← Int.write (outSeqNoX secretChat); let bytes := bytes ++ b in
  b ← Int.write (timeRekey secretChat); let bytes := bytes ++ b in
  b ← Float.write (created secretChat); let bytes := bytes ++ b in
  b ← Float.write (changed secretChat); let bytes := bytes ++ b in
  bytes ← (if present (rekeyStep secretChat)
           then b ← Int.write (default 0 (rekeyStep secretChat)); mret (bytes ++ b)
           else mret bytes);
  bytes ← (if present (rekeyExchange secretChat)
           then b ← Long.write (default 0 (rekeyExchange secretChat)); mret (bytes ++ b)
           else mret bytes);
  bytes ← (if present (adminId secretChat)
           then b ← Long.write (default 0 (adminId secretChat)); mret (bytes ++ b)
           else mret bytes);
  bytes ← (if present (ttl secretChat)
           then b ← Int.write (default 0 (ttl secretChat)); mret (bytes ++ b)
           else mret bytes);
  mret bytes.

(** The reads of [buildSecretChatFromBytes]. An optional field whose bit is
    unset is not assigned and stays as [new Storages.SecretChat] left it:
    unset. *)
Definition read_secretChat : reader SecretChat :=
  flags ← Int.read;
  id ← Int.read;
  accessHash ← Long.read;
  isAdmin ← Bool.read;
  authKey ← Bytes.read;
  mtproto ← Int.read;
  layer ← Int.read;
  inSeqNo ← Int.read;
  outSeqNo ← Int.read;
  inSeqNoX ← Int.read;
  outSeqNoX ← Int.read;
  timeRekey ← Int.read;
  created ← Float.read;
  changed ← Float.read;
  rekeyStep ← (if flag flags 3 then x ← Int.read; mret (Some x) else mret None);
  rekeyExchange ← (if flag flags 4 then x ← Long.read; mret (Some x) else mret None);
  adminId ← (if flag flags 5 then x ← Long.read; mret (Some x) else mret None);
  ttl ← (if flag flags 6 then x ← Int.read; mret (Some x) else mret None);
  mret {| id := id; accessHash := accessHash; isAdmin := isAdmin;
          authKey := authKey; mtproto := mtproto; layer := layer;
          inSeqNo := inSeqNo; outSeqNo := outSeqNo; inSeqNoX := inSeqNoX;
          outSeqNoX := outSeqNoX; timeRekey := timeRekey;
          created := created; changed := changed;
          rekeyStep := rekeyStep; rekeyExchange := rekeyExchange;
          adminId := adminId; ttl := ttl |}.

Definition buildSecretChatFromBytes (bytes : list byte) : result SecretChat :=
  run read_secretChat bytes.

End Codec.

(** ** The previous revision of the peer encoder (single username) *)

Module Legacy.
Import Raws Js.

(** The legacy peer tuple: [username] is one string. *)
Record Peer : Type := {
  peer_id : Z;
  peer_accessHash : Z;
  peer_type : string;
  peer_username : option string;
  peer_phoneNumber : option string
}.

Definition truthy_string (field : option string) : bool :=
  match field with
  | Some s => negb (String.eqb s "")
  | None => false
  end.

Definition buildBytesFromPeer (peer : Peer) : result (list byte) :=
  let bytes : list byte := [] in
  let flags := 0 in
  let flags := if truthy_string (peer_username peer) then Z.lor flags (Z.shiftl 1 4) else flags in
  let flags := if truthy_string (peer_phoneNumber peer) then Z.lor flags (Z.shiftl 1 5) else flags in
  b ← Int.write flags; let bytes := bytes ++ b in
  b ← Long.write (peer_id peer); let bytes := bytes ++ b in
  b ← Long.write (peer_accessHash peer); let bytes := bytes ++ b in
  b ← String.write (peer_type peer); let bytes := bytes ++ b in
  bytes ← (if truthy_string (peer_username peer)
           then b ← String.write (default ""%string (peer_username peer));
                mret (bytes ++ b)
           else mret bytes);
  bytes ← (if truthy_string (peer_phoneNumber peer)
           then b ← String.write (default ""%string (peer_phoneNumber peer));
                mret (bytes ++ b)
           else mret bytes);
  mret bytes.

End Legacy.

(** ** The session store *)

Module Session.
Import Js Storages Codec.

(** A Redis entry: the stored string and the expiry it was set with
    ([EX], in seconds), if any. *)
Record entry : Type := { stored : string; EX : option Z }.

(** The fields of a [RedisSession] object the modelled methods use. *)
Record RedisSession : Type := {
  sessionName : string;
  _sessionDelim : string;
  _peerExp : option Z;
  _sessionExp : option Z;
  connected : bool;
  _dcId : Js.value;
  _ip : Js.value;
  _port : Js.value;
  _testMode : Js.value;
  _authKey : option (list byte)
}.

Record RedisOptions : Type := {
  peerExp : option Z;
  sessionExp : option Z;
  sessionDelim : option string
}.

(** [new RedisSession(sessionName, options)]; the fields inherited from the
    base session are taken as unset until [setAddress] assigns them. *)
Definition constructor (name : string) (options : option RedisOptions)
  : RedisSession :=
  {| sessionName := name;
     _sessionDelim :=
       match options ≫= sessionDelim with
       | Some d => if String.eqb d "" then ":" else d
       | None => ":"
       end;
     _peerExp := options ≫= peerExp;
     _sessionExp := options ≫= sessionExp;
     connected := false;
     _dcId := JUndefined; _ip := JUndefined; _port := JUndefined;
     _testMode := JUndefined; _authKey := None |}.

(** The object and the Redis server it talks to. *)
Record world : Type := { this : RedisSession; redis : gmap string entry }.

(** A method body: it may throw, and keeps the effects made before. *)
Definition method (A : Type) : Type := world → result A * world.

#[global] Instance method_ret : MRet method := λ A a w, (Ok a, w).
#[global] Instance method_bind : MBind method := λ A B f m w,
  match m w with
  | (Ok a, w') => f a w'
  | (Throw e, w') => (Throw e, w')
  end.

Definition lift {A} (r : result A) : method A := λ w, (r, w).
Definition throw {A} (e : error) : method A := λ w, (Throw e, w).
Definition get_this : method RedisSession := λ w, (Ok (this w), w).
Definition update_this (f : RedisSession → RedisSession) : method unit :=
  λ w, (Ok tt, {| this := f (this w); redis := redis w |}).

Definition set_connected (b : bool) (s : RedisSession) : RedisSession :=
  {| sessionName := sessionName s; _sessionDelim := _sessionDelim s;
     _peerExp := _peerExp s; _sessionExp := _sessionExp s;
     connected := b; _dcId := _dcId s; _ip := _ip s; _port := _port s;
     _testMode := _testMode s; _authKey := _authKey s |}.
Definition set_address (dcId ip port testMode : Js.value) (s : RedisSession)
  : RedisSession :=
  {| sessionName := sessionName s; _sessionDelim := _sessionDelim s;
     _peerExp := _peerExp s; _sessionExp := _sessionExp s;
     connected := connected s; _dcId := dcId; _ip := ip; _port := port;
     _testMode := testMode; _authKey := _authKey s |}.
Definition set_authKey (authKey : list byte) (s : RedisSession) : RedisSession :=
  {| sessionName := sessionName s; _sessionDelim := _sessionDelim s;
     _peerExp := _peerExp s; _sessionExp := _sessionExp s;
     connected := connected s; _dcId := _dcId s; _ip := _ip s;
     _port := _port s; _testMode := _testMode s; _authKey := Some authKey |}.

(** *** The Redis client

    The client is external; its commands are asynchronous (they return
    promises) and [scanIterator] is an asynchronous generator over the keys
    of the server. *)

(** Modelled from the spec: [client.get(key)], a promise of the stored
    string or of [null]. *)
Definition redis_get (key : string) : method Js.value := λ w,
  (Ok (JPromise (match redis w !! key with
                 | Some e => JStr (stored e)
                 | None => JNull
                 end)), w).

(** Modelled from the spec: [client.set(key, value, { EX })], which
    replaces the entry and its expiry. *)
Definition redis_set (key val : string) (ex : option Z) : method Js.value := λ w,
  (Ok (JPromise (JStr "OK")),
   {| this := this w; redis := <[key := {| stored := val; EX := ex |}]> (redis w) |}).

(** Modelled from the spec: [client.del(key)], a promise of the number of
    keys removed. *)
Definition redis_del (key : string) : method Js.value := λ w,
  (Ok (JPromise (JNum (if bool_decide (is_Some (redis w !! key)) then 1 else 0))),
   {| this := this w; redis := delete key (redis w) |}).

(** Modelled from the spec: [client.scanIterator()], an asynchronous
    generator of the keys on the server. *)
Definition redis_scanIterator : method Js.value := λ w,
  (Ok (JAsyncGenerator (map_to_list (redis w)).*1), w).

(** *** Loops; the body answers [Some r] for [return r]. *)

Fixpoint iterate {A} (keys : list string) (body : string → method (option A))
  : method (option A) :=
  match keys with
  | [] => mret None
  | key :: rest =>
      r ← body key;
      match r with
      | Some a => mret (Some a)
      | None => iterate rest body
      end
  end.

(** [for await (const key of it)]: asynchronous and synchronous iterables. *)
Definition for_await_of {A} (it : Js.value) (body : string → method (option A))
  : method (option A) :=
  match it with
  | JAsyncGenerator keys | JArr keys => iterate keys body
  | _ => throw TypeError
  end.

(** [for (let key of it)]: the object must have [Symbol.iterator], which
    an asynchronous generator has not. *)
Definition for_of {A} (it : Js.value) (body : string → method (option A))
  : method (option A) :=
  match it with
  | JArr keys => iterate keys body
  | _ => throw TypeError
  end.

(** *** Methods *)

Definition _connect : method unit :=
  s ← get_this;
  if negb (connected s) then update_this (set_connected true) else mret tt.

Definition _set (key val : string) (exp : option Z) : method Js.value :=
  match exp with
  | Some ex => p ← redis_set key val (Some ex); mret (await p)
  | None => p ← redis_set key val None; mret (await p)
  end.

(** [`${this.sessionName}${this._sessionDelim}`] *)
Definition prefix (s : RedisSession) : string :=
  sessionName s +:+ _sessionDelim s.

Definition setAddress (dcId : Js.value) (ip : string) (port : Js.value)
    (testMode : bool) : method unit :=
  _ ← _connect;
  s ← get_this;
  let sessionName := prefix s in
  _ ← update_this (set_address (nullish dcId (JNum 2)) (JStr ip)
                               (nullish port (JNum 443)) (JBool testMode));
  _ ← _set (sessionName +:+ "dcId") (String_ dcId) (_sessionExp s);
  _ ← _set (sessionName +:+ "ip") (String_ (JStr ip)) (_sessionExp s);
  _ ← _set (sessionName +:+ "port") (String_ port) (_sessionExp s);
  _ ← _set (sessionName +:+ "testMode") (String_ (JBool testMode)) (_sessionExp s);
  mret tt.

Definition setAuthKey (authKey : list byte) (dcId : Z) : method unit :=
  s ← get_this;
  if negb (strict_eq (JNum dcId) (_dcId s)) then mret tt
  else
    _ ← _connect;
    _ ← update_this (set_authKey authKey);
    let sessionName := prefix s in
    _ ← _set (sessionName +:+ "authKey") (toString_hex authKey) (_sessionExp s);
    mret tt.

(** The body of the loop of [delete]. *)
Definition delete_body (sessionName key : string) : method (option unit) :=
  if startsWith key sessionName
  then p ← redis_del key; let _ := await p in mret None
  else mret None.

Definition delete : method unit :=
  _ ← _connect;
  s ← get_this;
  let sessionName := prefix s in
  it ← redis_scanIterator;
  _ ← for_await_of it (delete_body sessionName);
  mret tt.

(** The loop of [updatePeers]; the write is issued without [await]. *)
Fixpoint updatePeers_each (s : RedisSession) (peers : list Peer) : method unit :=
  match peers with
  | [] => mret tt
  | peer :: rest =>
      bytes ← lift (buildBytesFromPeer peer);
      _ ← _set (prefix s +:+ "peer" +:+ _sessionDelim s +:+ pretty (peer_id peer))
               (toString_hex bytes) (_peerExp s);
      updatePeers_each s rest
  end.

Definition updatePeers (peers : list Peer) : method unit :=
  _ ← _connect;
  s ← get_this;
  updatePeers_each s peers.

Fixpoint updateSecretChats_each (s : RedisSession) (chats : list SecretChat)
  : method unit :=
  match chats with
  | [] => mret tt
  | chat :: rest =>
      bytes ← lift (buildBytesFromSecretChat chat);
      _ ← _set (prefix s +:+ "e2e" +:+ _sessionDelim s +:+ pretty (id chat))
               (toString_hex bytes) (_peerExp s);
      updateSecretChats_each s rest
  end.

Definition updateSecretChats (chats : list SecretChat) : method unit :=
  _ ← _connect;
  s ← get_this;
  updateSecretChats_each s chats.

(** [peer[i]] *)
Definition at_ (peer : list Js.value) (i : nat) : Js.value := nth i peer JUndefined.

Definition getSecretChatById (id : Z) : method (option SecretChat) :=
  _ ← _connect;
  s ← get_this;
  let sessionName := prefix s in
  (* no [await]: [bytes] is the promise *)
  bytes ← redis_get (sessionName +:+ "e2e" +:+ _sessionDelim s +:+ pretty id);
  if truthy bytes then
    buffer ← lift (Buffer_from_hex bytes);
    chat ← lift (buildSecretChatFromBytes buffer);
    mret (Some chat)
  else mret None.

Definition getPeerById (id : Z) : method (option InputPeer) :=
  _ ← _connect;
  s ← get_this;
  let sessionName := prefix s in
  (* no [await]: [bytes] is the promise *)
  bytes ← redis_get (sessionName +:+ "peer" +:+ _sessionDelim s +:+ pretty id);
  if truthy bytes then
    buffer ← lift (Buffer_from_hex bytes);
    peer ← lift (buildPeerFromBytes buffer);
    mret (Some (getInputPeer (at_ peer 0) (at_ peer 1) (at_ peer 2)))
  else mret None.

(** [Array.isArray(peer[3]) && peer[3].includes(username.toLowerCase())] *)
Definition username_matches (peer : list Js.value) (username : string) : bool :=
  match at_ peer 3 with
  | JArr l => includes l (toLowerCase username)
  | _ => false
  end.

(** The body of the loop of [getPeerByUsername]. *)
Definition getPeerByUsername_body (s : RedisSession) (username key : string)
  : method (option InputPeer) :=
  if startsWith key (prefix s +:+ "peer") then
    p ← redis_get key;
    let bytes := await p in
    if truthy bytes then
      buffer ← lift (Buffer_from_hex bytes);
      peer ← lift (buildPeerFromBytes buffer);
      if username_matches peer username
      then mret (Some (getInputPeer (at_ peer 0) (at_ peer 1) (at_ peer 2)))
      else mret None
    else mret None
  else mret None.

Definition getPeerByUsername (username : string) : method (option InputPeer) :=
  _ ← _connect;
  s ← get_this;
  it ← redis_scanIterator;
  for_of it (getPeerByUsername_body s username).

End Session.

(** ** Vocabulary of the statements *)

(** The ranges of the fixed-width writers. *)
Definition int32 (v : Z) : Prop := - 2 ^ 31 <= v < 2 ^ 31.
Definition uint32 (v : Z) : Prop := 0 <= v < 2 ^ 32.
Definition int64 (v : Z) : Prop := - 2 ^ 63 <= v < 2 ^ 63.

(** A string or buffer whose length fits the three-byte length prefix. *)
Definition short_string (s : string) : Prop := Z.of_nat (String.length s) < 2 ^ 24.
Definition short_bytes (b : list byte) : Prop := Z.of_nat (length b) < 2 ^ 24.

Module Vocabulary.
Import Raws Js Storages Codec Session.

(** *** Peers *)

Definition with_username (u : option (list string)) (r : Peer) : Peer :=
  {| peer_id := peer_id r; peer_accessHash := peer_accessHash r;
     peer_type := peer_type r; peer_username := u;
     peer_phoneNumber := peer_phoneNumber r |}.

(** The tuple a peer is, as the array of its five slots. *)
Definition peer_array (r : Peer) : list value :=
  [JBigInt (peer_id r); JBigInt (peer_accessHash r); JStr (peer_type r);
   match peer_username r with Some l => JArr l | None => JUndefined end;
   match peer_phoneNumber r with Some s => JStr s | None => JUndefined end].

(** Two arrays agree on the five slots of a peer tuple. *)
Definition same_peer (a b : list value) : Prop :=
  ∀ i, (i < 5)%nat → at_ a i = at_ b i.

Definition is_array (v : value) : bool :=
  match v with JArr _ => true | _ => false end.

(** The legacy layout in the words of its description, as a record: the
    flags word, [id], [accessHash], [kind], then a single optional username
    (bit 4) wrapped as a one-element sequence, then the optional phone
    number (bit 5); read from the first byte of the buffer on. A field whose
    bit is unset is absent from the record. *)
Definition legacy_record : reader Peer :=
  flags ← Int.read;
  id ← Long.read;
  accessHash ← Long.read;
  kind ← String.read;
  username ← (if flag flags 4 then u ← String.read; mret (Some [u]) else mret None);
  phoneNumber ← (if flag flags 5 then p ← String.read; mret (Some p) else mret None);
  mret {| peer_id := id; peer_accessHash := accessHash; peer_type := kind;
          peer_username := username; peer_phoneNumber := phoneNumber |}.

(** What the fallback branch of the decoder pushes for a legacy tuple: the
    three required slots, then the one-element array of the username if it
    is not empty, then the phone number if it is not empty. Nothing is
    pushed for a field that is not there, so without a username the phone
    number is in slot 3. *)
Definition legacy_pushed (r : Legacy.Peer) : list value :=
  [JBigInt (Legacy.peer_id r); JBigInt (Legacy.peer_accessHash r);
   JStr (Legacy.peer_type r)]
  ++ (if Legacy.truthy_string (Legacy.peer_username r)
      then [JArr [default ""%string (Legacy.peer_username r)]] else [])
  ++ (if Legacy.truthy_string (Legacy.peer_phoneNumber r)
      then [JStr (default ""%string (Legacy.peer_phoneNumber r))] else []).

Definition Legacy_valid (r : Legacy.Peer) : Prop :=
  int64 (Legacy.peer_id r) ∧ int64 (Legacy.peer_accessHash r)
  ∧ short_string (Legacy.peer_type r)
  ∧ short_string (default ""%string (Legacy.peer_username r))
  ∧ short_string (default ""%string (Legacy.peer_phoneNumber r)).

(** *** Secret chats *)

Definition with_optional (rekeyStep' rekeyExchange' adminId' ttl' : option Z)
    (r : SecretChat) : SecretChat :=
  {| id := id r; accessHash := accessHash r; isAdmin := isAdmin r;
     authKey := authKey r; mtproto := mtproto r; layer := layer r;
     inSeqNo := inSeqNo r; outSeqNo := outSeqNo r; inSeqNoX := inSeqNoX r;
     outSeqNoX := outSeqNoX r; timeRekey := timeRekey r;
     created := created r; changed := changed r;
     rekeyStep := rekeyStep'; rekeyExchange := rekeyExchange';
     adminId := adminId'; ttl := ttl' |}.

(** Every field fits its writer, and the timestamps are singles. *)
Record SecretChat_valid (r : SecretChat) : Prop := {
  valid_id : int32 (id r);
  valid_accessHash : int64 (accessHash r);
  valid_authKey : short_bytes (authKey r);
  valid_mtproto : int32 (mtproto r);
  valid_layer : int32 (layer r);
  valid_inSeqNo : int32 (inSeqNo r);
  valid_outSeqNo : int32 (outSeqNo r);
  valid_inSeqNoX : int32 (inSeqNoX r);
  valid_outSeqNoX : int32 (outSeqNoX r);
  valid_timeRekey : int32 (timeRekey r);
  valid_created : Float.exact (created r);
  valid_changed : Float.exact (changed r);
  valid_rekeyStep : int32 (default 0 (rekeyStep r));
  valid_rekeyExchange : int64 (default 0 (rekeyExchange r));
  valid_adminId : int64 (default 0 (adminId r));
  valid_ttl : int32 (default 0 (ttl r))
}.

(** The flags word for a set of optional fields that are there. *)
Definition flags_of (r : SecretChat) : Z :=
  (if rekeyStep r is Some _ then 8 else 0)
  + (if rekeyExchange r is Some _ then 16 else 0)
  + (if adminId r is Some _ then 32 else 0)
  + (if ttl r is Some _ then 64 else 0).

(** The bytes of an optional field: those of its value when it is there. *)
Definition optional_bytes (n : nat) (f : option Z) : list byte :=
  match f with Some v => le_bytes n v | None => [] end.

(** The required fields on the wire, in the order they are written. *)
Definition required_bytes (r : SecretChat) : list byte :=
  le_bytes 4 (id r) ++ le_bytes 8 (accessHash r)
  ++ le_bytes 4 (if isAdmin r then Bool.BoolTrue_ID else Bool.BoolFalse_ID)
  ++ Bytes.write (authKey r)
  ++ le_bytes 4 (mtproto r) ++ le_bytes 4 (layer r)
  ++ le_bytes 4 (inSeqNo r) ++ le_bytes 4 (outSeqNo r)
  ++ le_bytes 4 (inSeqNoX r) ++ le_bytes 4 (outSeqNoX r)
  ++ le_bytes 4 (timeRekey r)
  ++ Float.encode (created r) ++ Float.encode (changed r).

(** A secret chat on the wire: flags word, required fields, then the
    optional fields that are there, in the order of their bits. *)
Definition secretChat_layout (r : SecretChat) : list byte :=
  le_bytes 4 (flags_of r) ++ required_bytes r
  ++ optional_bytes 4 (rekeyStep r) ++ optional_bytes 8 (rekeyExchange r)
  ++ optional_bytes 8 (adminId r) ++ optional_bytes 4 (ttl r).

(** The flags word as [buildBytesFromSecretChat] builds it from the four
    conditions. *)
Definition flags_word (p3 p4 p5 p6 : bool) : Z :=
  let flags := 0 in
  let flags := if p3 then Z.lor flags (Z.shiftl 1 3) else flags in
  let flags := if p4 then Z.lor flags (Z.shiftl 1 4) else flags in
  let flags := if p5 then Z.lor flags (Z.shiftl 1 5) else flags in
  let flags := if p6 then Z.lor flags (Z.shiftl 1 6) else flags in
  flags.

(** A falsy optional field, taken as absent. *)
Definition absent_if_falsy (f : option Z) : option Z :=
  if present f then f else None.

(** *** Sessions *)

(** The world after [m], and what [m] answered. *)
Definition after {A} (m : method A) (w : world) : world := snd (m w).
Definition answer {A} (m : method A) (w : world) : result A := fst (m w).

(** No character of [d] occurs in [s]. *)
Fixpoint free_of (d s : string) : Prop :=
  match s with
  | EmptyString => True
  | String c s' => ¬ In c (list_ascii_of_string d) ∧ free_of d s'
  end.

(** *** The examples of the specification *)

(** The double [m * 2^e]. *)
Definition number_of (m : positive) (e : Z) : number :=
  binary_round 53 1024 false m e.

Definition example_peer : Peer :=
  {| peer_id := 123; peer_accessHash := 456; peer_type := "user";
     peer_username := Some ["alice"%string; "Bob"%string];
     peer_phoneNumber := None |}.

Definition example_legacy_peer : Legacy.Peer :=
  {| Legacy.peer_id := 123; Legacy.peer_accessHash := 456;
     Legacy.peer_type := "user"; Legacy.peer_username := Some "Bob"%string;
     Legacy.peer_phoneNumber := Some "15550100"%string |}.

Definition example_chat : SecretChat :=
  {| id := 42; accessHash := -7; isAdmin := true;
     authKey := ["001"%byte; "002"%byte; "003"%byte];
     mtproto := 2; layer := 144; inSeqNo := 0; outSeqNo := 1;
     inSeqNoX := 0; outSeqNoX := 1; timeRekey := 100;
     created := number_of 3 (-1);
     changed := S754_zero false;
     rekeyStep := Some 1; rekeyExchange := None;
     adminId := Some 99; ttl := None |}.

Definition example_peer_bytes : list byte :=
  Eval vm_compute in
    match buildBytesFromPeer example_peer with
    | Ok b => b
    | Throw _ => []
    end.

(** The example peer with a phone number and no username. *)
Definition phone_only_peer : Peer :=
  {| peer_id := 123; peer_accessHash := 456; peer_type := "user";
     peer_username := None; peer_phoneNumber := Some "15550100"%string |}.

(** The example chat with [ttl] there and zero. *)
Definition zero_ttl_chat : SecretChat :=
  with_optional (Some 1) None (Some 99) (Some 0) example_chat.

(** The example chat without [ttl]. *)
Definition absent_ttl_chat : SecretChat :=
  with_optional (Some 1) None (Some 99) None example_chat.

Definition zero_ttl_bytes : list byte :=
  Eval vm_compute in
    match buildBytesFromSecretChat zero_ttl_chat with
    | Ok b => b
    | Throw _ => []
    end.

(** The example legacy tuple with a phone number and no username, and the
    bytes the previous encoder wrote for it. *)
Definition legacy_phone_only_peer : Legacy.Peer :=
  {| Legacy.peer_id := 123; Legacy.peer_accessHash := 456;
     Legacy.peer_type := "user"; Legacy.peer_username := None;
     Legacy.peer_phoneNumber := Some "15550100"%string |}.

Definition legacy_phone_only_bytes : list byte :=
  Eval vm_compute in
    match Legacy.buildBytesFromPeer legacy_phone_only_peer with
    | Ok b => b
    | Throw _ => []
    end.

Definition example_legacy_bytes : list byte :=
  Eval vm_compute in
    match Legacy.buildBytesFromPeer example_legacy_peer with
    | Ok b => b
    | Throw _ => []
    end.

(** A fresh world for session ["s"] with the default delimiter. *)
Definition example_world : world :=
  {| this := constructor "s" None; redis := ∅ |}.

(** The world after [updatePeers] of the example peer. *)
Definition world_with_example_peer : world :=
  after (updatePeers [example_peer]) example_world.

(** The world after [setAddress(dcId, "149.154.167.50", 443, false)]. *)
Definition world_on_dc (dcId : Z) : world :=
  after (setAddress (JNum dcId) "149.154.167.50" (JNum 443) false) example_world.

(** The four keys [setAddress] writes. *)
Definition address_keys (s : RedisSession) : list string :=
  [prefix s +:+ "dcId"; prefix s +:+ "ip"; prefix s +:+ "port";
   prefix s +:+ "testMode"]%string.

(** A server that holds keys of session ["s"] and of session ["t"]. *)
Definition shared_world : world :=
  {| this := constructor "s" None;
     redis := <["s:dcId"%string := {| stored := "2"; EX := None |}]>
              (<["s:peer:123"%string := {| stored := "00"; EX := Some 60 |}]>
               (<["t:dcId"%string := {| stored := "4"; EX := None |}]> ∅)) |}.

End Vocabulary.

(** ** The rest of the session: the remaining methods of [RedisSession],
    the fields they use, and the previous decoder *)

Module Previous.
Import Raws Js Codec.

(** The previous revision of [buildPeerFromBytes]: no marker byte, the
    username pushed as the string it is. *)
Definition buildPeerFromBytes (bytes : list byte) : result (list value) :=
  run (read_peer JStr) bytes.

End Previous.

Module Rest.
Import Js Storages Codec Session.

(** The in-memory fields of the base session that [RedisSession] is left to
    set besides those of the address and the key. *)
Record BaseFields : Type := {
  _apiId : Js.value;
  _isBot : Js.value;
  _userId : Js.value
}.

(** The whole object with its server. *)
Record state : Type := { inner : world; base : BaseFields }.

(** A method body over the whole object. *)
Definition action (A : Type) : Type := state → result A * state.

#[global] Instance action_ret : MRet action := λ A a st, (Ok a, st).
#[global] Instance action_bind : MBind action := λ A B f m st,
  match m st with
  | (Ok a, st') => f a st'
  | (Throw e, st') => (Throw e, st')
  end.

(** A method of [Session], on the whole object. *)
Definition call {A} (m : method A) : action A := λ st,
  let (r, w) := m (inner st) in (r, {| inner := w; base := base st |}).

(** A value or an exception, as the outcome of a step. *)
Definition returned {A} (r : result A) : action A := λ st, (r, st).

Definition update_base (f : BaseFields → BaseFields) : action unit := λ st,
  (Ok tt, {| inner := inner st; base := f (base st) |}).

Definition set_apiId (v : Js.value) (b : BaseFields) : BaseFields :=
  {| _apiId := v; _isBot := _isBot b; _userId := _userId b |}.
Definition set_isBot (v : Js.value) (b : BaseFields) : BaseFields :=
  {| _apiId := _apiId b; _isBot := v; _userId := _userId b |}.
Definition set_userId (v : Js.value) (b : BaseFields) : BaseFields :=
  {| _apiId := _apiId b; _isBot := _isBot b; _userId := v |}.

Definition set_ip (v : Js.value) (s : RedisSession) : RedisSession :=
  set_address (_dcId s) v (_port s) (_testMode s) s.
Definition set_dcId (v : Js.value) (s : RedisSession) : RedisSession :=
  set_address v (_ip s) (_port s) (_testMode s) s.
Definition set_port (v : Js.value) (s : RedisSession) : RedisSession :=
  set_address (_dcId s) (_ip s) v (_testMode s) s.
Definition set_testMode (v : Js.value) (s : RedisSession) : RedisSession :=
  set_address (_dcId s) (_ip s) (_port s) v s.

Definition setApiId (apiId : Z) : action unit :=
  _ ← call _connect;
  s ← call get_this;
  let sessionName := prefix s in
  _ ← update_base (set_apiId (JNum apiId));
  _ ← call (_set (sessionName +:+ "apiId") (String_ (JNum apiId)) (_sessionExp s));
  mret tt.

Definition setIsBot (isbot : bool) : action unit :=
  _ ← call _connect;
  s ← call get_this;
  let sessionName := prefix s in
  _ ← update_base (set_isBot (JBool isbot));
  _ ← call (_set (sessionName +:+ "isBot") (String_ (JBool isbot)) (_sessionExp s));
  mret tt.

Definition setUserId (userId : Z) : action unit :=
  _ ← call _connect;
  s ← call get_this;
  let sessionName := prefix s in
  _ ← update_base (set_userId (JBigInt userId));
  _ ← call (_set (sessionName +:+ "userId") (String_ (JBigInt userId)) (_sessionExp s));
  mret tt.

(** *** Decimal numerals *)

Definition digit_value (c : ascii) : option N :=
  let n := N_of_ascii c in
  if ((48 <=? n) && (n <=? 57))%N then Some (n - 48)%N else None.

Fixpoint digits_value (s : string) (acc : N) : option N :=
  match s with
  | EmptyString => Some acc
  | String c s' =>
      match digit_value c with
      | Some d => digits_value s' (10 * acc + d)%N
      | None => None
      end
  end.

Definition parse_integer (s : string) : option Z :=
  match digits_value s 0 with
  | Some n => Some (Z.of_N n)
  | None =>
      match s with
      | String "-" s' => (λ n, - Z.of_N n) <$> digits_value s' 0
      | _ => None
      end
  end.

(** The integer [s] is the decimal numeral of, as [String(n)] writes it:
    digits without leading zero, a minus sign for a negative one. *)
Definition numeral_of (s : string) : option Z :=
  match parse_integer s with
  | Some n => if String.eqb (pretty n) s then Some n else None
  | None => None
  end.

Section Builtins.

(** [Number(s)] and [BigInt(s)] for the strings that are not the numeral of
    an integer the model holds exactly: whatever number, or exception, the
    language gives there. *)
Variable Number_other : string → Js.value.
Variable BigInt_other : string → result Js.value.

(** [Number(s)]: the numeral of a safe integer is that integer. *)
Definition Number_ (s : string) : Js.value :=
  match numeral_of s with
  | Some n => if Z.abs n <=? 2 ^ 53 - 1 then JNum n else Number_other s
  | None => Number_other s
  end.

(** [BigInt(s)]: the numeral of an integer is that integer. *)
Definition BigInt_ (s : string) : result Js.value :=
  match numeral_of s with
  | Some n => Ok (JBigInt n)
  | None => BigInt_other s
  end.

(** [if (v) this.f = g(v)] for a field of the object itself. *)
Definition load_field (v : Js.value) (set : RedisSession → RedisSession)
  : action unit :=
  if truthy v then call (update_this set) else mret tt.

(** The same for an inherited field. *)
Definition load_base (v : Js.value) (set : BaseFields → BaseFields)
  : action unit :=
  if truthy v then update_base set else mret tt.

Definition load : action unit :=
  _ ← call _connect;
  s ← call get_this;
  let sessionName := prefix s in
  p ← call (redis_get (sessionName +:+ "ip")); let ip := await p in
  p ← call (redis_get (sessionName +:+ "dcId")); let dcId := await p in
  p ← call (redis_get (sessionName +:+ "port")); let port := await p in
  p ← call (redis_get (sessionName +:+ "authKey")); let authKey := await p in
  p ← call (redis_get (sessionName +:+ "testMode")); let testMode := await p in
  p ← call (redis_get (sessionName +:+ "apiId")); let apiId := await p in
  p ← call (redis_get (sessionName +:+ "userId")); let userId := await p in
  p ← call (redis_get (sessionName +:+ "isBot")); let isBot := await p in
  _ ← load_field ip (set_ip ip);
  _ ← load_field dcId (set_dcId (Number_ (String_ dcId)));
  _ ← load_field port (set_port (Number_ (String_ port)));
  _ ← (if truthy authKey
       then key ← returned (Buffer_from_hex authKey);
            call (update_this (set_authKey key))
       else mret tt);
  _ ← load_field testMode (set_testMode (JBool (strict_eq testMode (JStr "true"))));
  _ ← load_base apiId (set_apiId (Number_ (String_ apiId)));
  _ ← (if truthy userId
       then v ← returned (BigInt_ (String_ userId)); update_base (set_userId v)
       else mret tt);
  _ ← load_base isBot (set_isBot (JBool (strict_eq isBot (JStr "true"))));
  mret tt.

End Builtins.

(** *** Methods that need no further field *)

(** [peer[4] && peer[4] === phoneNumber] *)
Definition phoneNumber_matches (peer : list Js.value) (phoneNumber : string) : bool :=
  truthy (at_ peer 4) && strict_eq (at_ peer 4) (JStr phoneNumber).

(** The body of the loop of [getPeerByPhoneNumber]. *)
Definition getPeerByPhoneNumber_body (s : RedisSession) (phoneNumber key : string)
  : method (option InputPeer) :=
  if startsWith key (prefix s +:+ "peer") then
    p ← redis_get key;
    let bytes := await p in
    if truthy bytes then
      buffer ← lift (Buffer_from_hex bytes);
      peer ← lift (buildPeerFromBytes buffer);
      if phoneNumber_matches peer phoneNumber
      then mret (Some (getInputPeer (at_ peer 0) (at_ peer 1) (at_ peer 2)))
      else mret None
    else mret None
  else mret None.

Definition getPeerByPhoneNumber (phoneNumber : string) : method (option InputPeer) :=
  _ ← _connect;
  s ← get_this;
  it ← redis_scanIterator;
  for_of it (getPeerByPhoneNumber_body s phoneNumber).


End Rest.

(** ** Vocabulary of the further statements *)

Module More.
Import Raws Js Storages Codec Session Vocabulary Rest.

(** *** Codecs *)

(** A peer tuple whose parts fit their writers (the usernames aside). *)
Definition Peer_valid (r : Peer) : Prop :=
  int64 (peer_id r) ∧ int64 (peer_accessHash r)
  ∧ short_string (peer_type r)
  ∧ short_string (default ""%string (peer_phoneNumber r)).

(** What the decoder pushes for a tuple without usernames: the three
    required slots, then the phone number if there is one. *)
Definition pushed (r : Peer) : list value :=
  [JBigInt (peer_id r); JBigInt (peer_accessHash r); JStr (peer_type r)]
  ++ (if has_phoneNumber r
      then [JStr (default ""%string (peer_phoneNumber r))] else []).

(** What the previous decoder pushes for a legacy tuple. *)
Definition previous_pushed (r : Legacy.Peer) : list value :=
  [JBigInt (Legacy.peer_id r); JBigInt (Legacy.peer_accessHash r);
   JStr (Legacy.peer_type r)]
  ++ (if Legacy.truthy_string (Legacy.peer_username r)
      then [JStr (default ""%string (Legacy.peer_username r))] else [])
  ++ (if Legacy.truthy_string (Legacy.peer_phoneNumber r)
      then [JStr (default ""%string (Legacy.peer_phoneNumber r))] else []).

(** A secret chat with its falsy optional fields taken away. *)
Definition normalize (r : SecretChat) : SecretChat :=
  with_optional (absent_if_falsy (rekeyStep r)) (absent_if_falsy (rekeyExchange r))
                (absent_if_falsy (adminId r)) (absent_if_falsy (ttl r)) r.

(** *** Keys and entries *)

Definition peer_key (s : RedisSession) (id : Z) : string :=
  prefix s +:+ "peer" +:+ _sessionDelim s +:+ pretty id.

Definition chat_key (s : RedisSession) (id : Z) : string :=
  prefix s +:+ "e2e" +:+ _sessionDelim s +:+ pretty id.

(** What [get] answers for [key], once awaited. *)
Definition fetched (m : gmap string entry) (key : string) : value :=
  match m !! key with
  | Some e => JStr (stored e)
  | None => JNull
  end.

(** The peers of a batch that can be written. *)
Definition encodable (p : Peer) : Prop := ∃ bytes, buildBytesFromPeer p = Ok bytes.

(** The entry [updatePeers] writes for a peer. *)
Definition peer_entry (s : RedisSession) (p : Peer) : entry :=
  {| stored := toString_hex (default [] (match buildBytesFromPeer p with
                                         | Ok b => Some b
                                         | Throw _ => None
                                         end));
     EX := _peerExp s |}.

(** The entry [updateSecretChats] writes for a chat. *)
Definition chat_entry (s : RedisSession) (c : SecretChat) : entry :=
  {| stored := toString_hex (default [] (match buildBytesFromSecretChat c with
                                         | Ok b => Some b
                                         | Throw _ => None
                                         end));
     EX := _peerExp s |}.

(** The store after writing, one after the other, [entry_of x] under
    [key_of x] for the items of a batch. *)
Definition written {X} (key_of : X → string) (entry_of : X → entry)
    (m : gmap string entry) (batch : list X) : gmap string entry :=
  foldl (λ m x, <[key_of x := entry_of x]> m) m batch.

(** *** The whole object *)

Definition after' {A} (m : action A) (st : state) : state := snd (m st).
Definition answer' {A} (m : action A) (st : state) : result A := fst (m st).

(** [f] applied when [b] holds. *)
Definition when {A} (b : bool) (f : A → A) (x : A) : A := if b then f x else x.

(** The bytes of a stored hex string. *)
Definition authKey_of (v : value) : option (list byte) :=
  match v with
  | JStr hex => Some (hex_bytes hex)
  | _ => None
  end.

Definition set_loaded_authKey (v : value) (s : RedisSession) : RedisSession :=
  match authKey_of v with
  | Some key => set_authKey key s
  | None => s
  end.

(** The object itself after [load]: the fields found on the server are set,
    in the order of the source, on the connected object. *)
Definition loaded_this (Number_other : string → value) (s : RedisSession)
    (m : gmap string entry) : RedisSession :=
  let v field := fetched m (prefix s +:+ field) in
  when (truthy (v "testMode"%string))
       (set_testMode (JBool (strict_eq (v "testMode"%string) (JStr "true"))))
    (when (truthy (v "authKey"%string)) (set_loaded_authKey (v "authKey"%string))
      (when (truthy (v "port"%string))
            (set_port (Number_ Number_other (String_ (v "port"%string))))
        (when (truthy (v "dcId"%string))
              (set_dcId (Number_ Number_other (String_ (v "dcId"%string))))
          (when (truthy (v "ip"%string)) (set_ip (v "ip"%string))
                (set_connected true s))))).

(** The eight keys [load] reads. *)
Definition session_keys (s : RedisSession) : list string :=
  (λ field, prefix s +:+ field)
  <$> ["ip"; "dcId"; "port"; "authKey"; "testMode"; "apiId"; "userId"; "isBot"]%string.

(** *** Examples *)

Definition unset_base : BaseFields :=
  {| _apiId := JUndefined; _isBot := JUndefined; _userId := JUndefined |}.

Definition example_state : state :=
  {| inner := example_world; base := unset_base |}.

(** What the example peer's bytes decode to. *)
Definition example_peer_decoded : list value :=
  Eval vm_compute in
    match buildPeerFromBytes example_peer_bytes with
    | Ok r => r
    | Throw _ => []
    end.

(** An instance of [Number] and [BigInt] off the integer numerals, for the
    examples: which one is of no consequence there. *)
Definition no_Number : string → value := λ _, JUndefined.
Definition no_BigInt : string → result value := λ _, Throw RangeError.

(** A peer whose id does not fit eight bytes. *)
Definition unwritable_peer : Peer :=
  {| peer_id := 2 ^ 63; peer_accessHash := 0; peer_type := "user";
     peer_username := None; peer_phoneNumber := None |}.


End More.

(** * Facts about the primitive codec *)

Section RawsFacts.
Import Raws.

Lemma Z_of_byte_range b : 0 <= Z_of_byte b < 256.
Proof.
  unfold Z_of_byte. pose proof (Byte.to_N_bounded b). lia.
Qed.

Lemma Z_of_byte_of_Z z : Z_of_byte (byte_of_Z z) = z mod 256.
Proof.
  unfold Z_of_byte, byte_of_Z.
  pose proof (Z.mod_pos_bound z 256 ltac:(lia)) as Hz.
  destruct (Byte.of_N (Z.to_N (z mod 256))) as [b|] eqn:E.
  - apply Byte.to_of_N in E. simpl. rewrite E. lia.
  - apply Byte.of_N_None_iff in E. lia.
Qed.

Lemma byte_of_Z_of_byte b : byte_of_Z (Z_of_byte b) = b.
Proof.
  unfold byte_of_Z, Z_of_byte.
  pose proof (Byte.to_N_bounded b).
  rewrite Z.mod_small by lia. rewrite N2Z.id, Byte.of_to_N. reflexivity.
Qed.

Lemma length_le_bytes n z : length (le_bytes n z) = n.
Proof. revert z. induction n; intros; simpl; auto. Qed.

Lemma le_value_le_bytes n z :
  le_value (le_bytes n z) = z mod 256 ^ Z.of_nat n.
Proof.
  revert z. induction n as [|n IH]; intros z.
  - simpl. now rewrite Z.mod_1_r.
  - cbn [le_bytes le_value]. rewrite Z_of_byte_of_Z, IH.
    rewrite Nat2Z.inj_succ, Z.pow_succ_r by lia.
    rewrite Z.rem_mul_r by lia. reflexivity.
Qed.

Lemma read_fixed_app n (bs rest : list byte) :
  length bs = n → read_fixed n (bs ++ rest) = Ok (bs, rest).
Proof.
  intros <-. unfold read_fixed.
  rewrite length_app.
  destruct (Nat.ltb_spec (length bs + length rest) (length bs)); [lia|].
  rewrite take_app_length, drop_app_length. reflexivity.
Qed.

Lemma BytesIO_read_app (bs rest : list byte) :
  BytesIO_read (Z.of_nat (length bs)) (bs ++ rest) = Ok (bs, rest).
Proof.
  unfold BytesIO_read. rewrite Nat2Z.id.
  rewrite take_app_length, drop_app_length. reflexivity.
Qed.

Lemma length_zeros n : 0 <= n → Z.of_nat (length (zeros n)) = n.
Proof. intros. unfold zeros. rewrite length_replicate. lia. Qed.

Lemma Int_write_ok v : int32 v → Int.write v = Ok (le_bytes 4 v).
Proof.
  unfold int32, Int.write. intros H.
  destruct (Z.leb_spec (- 2 ^ 31) v), (Z.ltb_spec v (2 ^ 31)); try lia.
  reflexivity.
Qed.

Lemma Int_write_unsigned_ok v : uint32 v → Int.write_unsigned v = Ok (le_bytes 4 v).
Proof.
  unfold uint32, Int.write_unsigned. intros H.
  destruct (Z.leb_spec 0 v), (Z.ltb_spec v (2 ^ 32)); try lia.
  reflexivity.
Qed.

Lemma Long_write_ok v : int64 v → Long.write v = Ok (le_bytes 8 v).
Proof.
  unfold int64, Long.write. intros H.
  destruct (Z.leb_spec (- 2 ^ 63) v), (Z.ltb_spec v (2 ^ 63)); try lia.
  reflexivity.
Qed.

Lemma to_signed_mod bits v :
  0 < bits → - 2 ^ (bits - 1) <= v < 2 ^ (bits - 1) →
  to_signed bits (v mod 2 ^ bits) = v.
Proof.
  intros Hb Hv. unfold to_signed.
  assert (Hp : 2 ^ bits = 2 * 2 ^ (bits - 1)).
  { rewrite <- Z.pow_succ_r by lia. f_equal. lia. }
  destruct (Z.ltb_spec (v mod 2 ^ bits) (2 ^ (bits - 1))) as [Hlt|Hge].
  - destruct (Z.lt_ge_cases v 0) as [Hneg|Hpos].
    + rewrite <- (Z.mod_add v 1) in Hlt by lia.
      rewrite Z.mod_small in Hlt by lia. lia.
    + rewrite Z.mod_small by lia. reflexivity.
  - destruct (Z.lt_ge_cases v 0) as [Hneg|Hpos].
    + rewrite <- (Z.mod_add v 1) by lia.
      rewrite Z.mod_small by lia. lia.
    + rewrite Z.mod_small in Hge by lia. lia.
Qed.

Lemma Int_read_le_bytes v rest :
  int32 v → Int.read (le_bytes 4 v ++ rest) = Ok (v, rest).
Proof.
  intros H. unfold Int.read, mbind, reader_bind.
  rewrite read_fixed_app by apply length_le_bytes.
  unfold mret, reader_ret. rewrite le_value_le_bytes.
  change (256 ^ Z.of_nat Int.SIZE) with (2 ^ 32).
  rewrite to_signed_mod; [reflexivity | lia | exact H].
Qed.

Lemma Int_read_unsigned_le_bytes v rest :
  uint32 v → Int.read_unsigned (le_bytes 4 v ++ rest) = Ok (v, rest).
Proof.
  intros H. unfold Int.read_unsigned, mbind, reader_bind.
  rewrite read_fixed_app by apply length_le_bytes.
  unfold mret, reader_ret. rewrite le_value_le_bytes.
  change (256 ^ Z.of_nat Int.SIZE) with (2 ^ 32).
  rewrite Z.mod_small by exact H. reflexivity.
Qed.

Lemma Long_read_le_bytes v rest :
  int64 v → Long.read (le_bytes 8 v ++ rest) = Ok (v, rest).
Proof.
  intros H. unfold Long.read, mbind, reader_bind.
  rewrite read_fixed_app by apply length_le_bytes.
  unfold mret, reader_ret. rewrite le_value_le_bytes.
  change (256 ^ Z.of_nat Long.SIZE) with (2 ^ 64).
  rewrite to_signed_mod; [reflexivity | lia | exact H].
Qed.

Lemma Bool_write_ok (b : bool) :
  Bool.write b = Ok (le_bytes 4 (if b then Bool.BoolTrue_ID else Bool.BoolFalse_ID)).
Proof. destruct b; reflexivity. Qed.

Lemma Bool_read_le_bytes (b : bool) rest :
  Bool.read (le_bytes 4 (if b then Bool.BoolTrue_ID else Bool.BoolFalse_ID) ++ rest)
  = Ok (b, rest).
Proof. destruct b; reflexivity. Qed.

Lemma Float_read_encode x rest :
  Float.read (Float.encode x ++ rest) = Ok (Float.decode (Float.encode x), rest).
Proof.
  unfold Float.read, mbind, reader_bind.
  rewrite read_fixed_app by apply length_le_bytes. reflexivity.
Qed.

Lemma Bytes_read_write (v rest : list byte) :
  Z.of_nat (length v) < 2 ^ 24 →
  Bytes.read (Bytes.write v ++ rest) = Ok (v, rest).
Proof.
  intros Hlen. unfold Bytes.write, Bytes.read.
  set (n := Z.of_nat (length v)) in *.
  destruct (Z.leb_spec n 253) as [Hs|Hl].
  - unfold mbind, reader_bind. rewrite <- !app_assoc.
    rewrite (read_fixed_app 1 [byte_of_Z n]) by reflexivity.
    cbn [le_value]. rewrite Z_of_byte_of_Z, Z.mod_small by lia.
    replace (n + 256 * 0) with n by lia.
    destruct (Z.leb_spec n 253); [|lia].
    subst n. rewrite BytesIO_read_app.
    set (k := (- (Z.of_nat (length v) + 1)) mod 4).
    assert (0 <= k) by (apply Z.mod_pos_bound; lia).
    rewrite <- (length_zeros k) at 1 by assumption.
    rewrite BytesIO_read_app. reflexivity.
  - unfold mbind, reader_bind. rewrite <- !app_assoc.
    rewrite (read_fixed_app 1 ["254"%byte]) by reflexivity.
    change (le_value ["254"%byte] <=? 253) with false. cbv iota beta.
    rewrite read_fixed_app by apply length_le_bytes.
    rewrite le_value_le_bytes.
    change (256 ^ Z.of_nat 3) with (2 ^ 24).
    rewrite Z.mod_small by lia.
    subst n. rewrite BytesIO_read_app.
    set (k := (- Z.of_nat (length v)) mod 4).
    assert (0 <= k) by (apply Z.mod_pos_bound; lia).
    rewrite <- (length_zeros k) at 1 by assumption.
    rewrite BytesIO_read_app. reflexivity.
Qed.

Lemma length_list_byte_of_string (v : string) :
  length (list_byte_of_string v) = String.length v.
Proof.
  unfold list_byte_of_string. rewrite length_map.
  induction v; simpl; auto.
Qed.

Lemma String_read_write (v : string) rest :
  Z.of_nat (String.length v) < 2 ^ 24 →
  String.read (Bytes.write (list_byte_of_string v) ++ rest) = Ok (v, rest).
Proof.
  intros Hlen. unfold String.read, mbind, reader_bind.
  rewrite Bytes_read_write.
  - unfold mret, reader_ret. now rewrite string_of_list_byte_of_string.
  - now rewrite length_list_byte_of_string.
Qed.

(** Singles survive [Float]; a double that is not a single does not: one
    and a half is kept, 1700000000.5 is not. *)
Lemma Float_keeps_singles_only :
  Float.exact (Vocabulary.number_of 3 (-1))
  ∧ ¬ Float.exact (Vocabulary.number_of 3400000001 (-1)).
Proof. split; vm_compute; congruence. Qed.

End RawsFacts.


(** * Facts about the record codecs *)

Section CodecFacts.
Import Raws Js Storages Codec Vocabulary.

Lemma result_bind_Ok {A B} (m : result A) (k : A → result B) y :
  (m ≫= k) = Ok y → ∃ a, m = Ok a ∧ k a = Ok y.
Proof. destruct m; simpl; [eauto | discriminate]. Qed.

Lemma reader_bind_Ok {A B} (m : reader A) (f : A → reader B) bs a bs' :
  m bs = Ok (a, bs') → (m ≫= f) bs = f a bs'.
Proof. intros H. unfold mbind, reader_bind. now rewrite H. Qed.

Lemma present_Some v : v ≠ 0 → present (Some v) = true.
Proof. intros H. unfold present. now apply negb_true_iff, Z.eqb_neq. Qed.

Lemma Float_read_exact x rest :
  Float.exact x → Float.read (Float.encode x ++ rest) = Ok (x, rest).
Proof. intros H. rewrite Float_read_encode. now rewrite H. Qed.

Lemma write_optional_Int (f : option Z) bytes :
  f ≠ Some 0 → int32 (default 0 f) →
  (if present f then b ← Int.write (default 0 f); mret (bytes ++ b) else mret bytes)
  = Ok (bytes ++ optional_bytes 4 f).
Proof.
  intros Hf Hr. destruct f as [v|]; cbn [present default from_option] in *.
  - rewrite (proj2 (negb_true_iff _)) by (apply Z.eqb_neq; congruence).
    rewrite Int_write_ok by exact Hr. reflexivity.
  - cbn. now rewrite app_nil_r.
Qed.

Lemma write_optional_Long (f : option Z) bytes :
  f ≠ Some 0 → int64 (default 0 f) →
  (if present f then b ← Long.write (default 0 f); mret (bytes ++ b) else mret bytes)
  = Ok (bytes ++ optional_bytes 8 f).
Proof.
  intros Hf Hr. destruct f as [v|]; cbn [present default from_option] in *.
  - rewrite (proj2 (negb_true_iff _)) by (apply Z.eqb_neq; congruence).
    rewrite Long_write_ok by exact Hr. reflexivity.
  - cbn. now rewrite app_nil_r.
Qed.

Lemma read_optional_Int (f : option Z) rest :
  f ≠ Some 0 → int32 (default 0 f) →
  (if present f then x ← Int.read; mret (Some x) else mret None)
    (optional_bytes 4 f ++ rest) = Ok (f, rest).
Proof.
  intros Hf Hr. destruct f as [v|]; cbn [present default from_option] in *.
  - rewrite (proj2 (negb_true_iff _)) by (apply Z.eqb_neq; congruence).
    cbn [optional_bytes]. now rewrite (reader_bind_Ok _ _ _ _ _ (Int_read_le_bytes v rest Hr)).
  - reflexivity.
Qed.

Lemma read_optional_Long (f : option Z) rest :
  f ≠ Some 0 → int64 (default 0 f) →
  (if present f then x ← Long.read; mret (Some x) else mret None)
    (optional_bytes 8 f ++ rest) = Ok (f, rest).
Proof.
  intros Hf Hr. destruct f as [v|]; cbn [present default from_option] in *.
  - rewrite (proj2 (negb_true_iff _)) by (apply Z.eqb_neq; congruence).
    cbn [optional_bytes]. now rewrite (reader_bind_Ok _ _ _ _ _ (Long_read_le_bytes v rest Hr)).
  - reflexivity.
Qed.

Lemma flags_word_bits p3 p4 p5 p6 :
  int32 (flags_word p3 p4 p5 p6)
  ∧ flag (flags_word p3 p4 p5 p6) 3 = p3
  ∧ flag (flags_word p3 p4 p5 p6) 4 = p4
  ∧ flag (flags_word p3 p4 p5 p6) 5 = p5
  ∧ flag (flags_word p3 p4 p5 p6) 6 = p6.
Proof. destruct p3, p4, p5, p6; vm_compute; intuition congruence. Qed.

Lemma flags_word_present (r : SecretChat) :
  rekeyStep r ≠ Some 0 → rekeyExchange r ≠ Some 0 →
  adminId r ≠ Some 0 → ttl r ≠ Some 0 →
  flags_word (present (rekeyStep r)) (present (rekeyExchange r))
             (present (adminId r)) (present (ttl r)) = flags_of r.
Proof.
  unfold flags_of. intros H3 H4 H5 H6.
  destruct (rekeyStep r) as [v3|], (rekeyExchange r) as [v4|],
           (adminId r) as [v5|], (ttl r) as [v6|];
    rewrite ?present_Some by congruence; reflexivity.
Qed.

Lemma result_bind_Ok_l {A B} (m : result A) (k : A → result B) a :
  m = Ok a → (m ≫= k) = k a.
Proof. now intros ->. Qed.

Lemma String_read_write_end (v : string) :
  short_string v →
  String.read (Bytes.write (list_byte_of_string v)) = Ok (v, []).
Proof.
  intros H. rewrite <- (app_nil_r (Bytes.write _)). now apply String_read_write.
Qed.

Ltac string_read_ok :=
  first [ apply String_read_write; assumption
        | apply String_read_write_end; assumption ].

Ltac write_ok :=
  lazymatch goal with
  | |- Int.write _ = _ => apply Int_write_ok; assumption
  | |- Long.write _ = _ => apply Long_write_ok; assumption
  | |- Bool.write _ = _ => apply Bool_write_ok
  | |- Float.write _ = _ => reflexivity
  | |- String.write _ = _ => reflexivity
  | |- (if present _ then Int.write _ ≫= _ else _) = _ =>
      apply write_optional_Int; assumption
  | |- (if present _ then Long.write _ ≫= _ else _) = _ =>
      apply write_optional_Long; assumption
  end.

Ltac step_write := erewrite result_bind_Ok_l by write_ok; cbv beta zeta.

Ltac read_ok :=
  lazymatch goal with
  | |- Int.read _ = _ => apply Int_read_le_bytes; assumption
  | |- Long.read _ = _ => apply Long_read_le_bytes; assumption
  | |- Bool.read _ = _ => apply Bool_read_le_bytes
  | |- Float.read _ = _ => apply Float_read_exact; assumption
  | |- Bytes.read _ = _ => apply Bytes_read_write; assumption
  | |- String.read _ = _ => string_read_ok
  | |- mret _ _ = _ => reflexivity
  | |- (String.read ≫= _) _ = _ =>
      erewrite reader_bind_Ok by string_read_ok; reflexivity
  | |- (if present _ then Int.read ≫= _ else _) _ = _ =>
      apply read_optional_Int; assumption
  | |- (if present _ then Long.read ≫= _ else _) _ = _ =>
      apply read_optional_Long; assumption
  end.

Ltac step_read := erewrite reader_bind_Ok by read_ok; cbv beta.

Ltac eval_flags :=
  repeat match goal with
  | |- context [flag ?F ?k] =>
      let b := eval vm_compute in (flag F k) in
      change (flag F k) with b
  end;
  cbv iota.

Section SecretChatWire.
Variable r : SecretChat.
Hypothesis Hvalid : SecretChat_valid r.
Hypothesis H3 : rekeyStep r ≠ Some 0.
Hypothesis H4 : rekeyExchange r ≠ Some 0.
Hypothesis H5 : adminId r ≠ Some 0.
Hypothesis H6 : ttl r ≠ Some 0.

Lemma buildBytesFromSecretChat_layout :
  buildBytesFromSecretChat r = Ok (secretChat_layout r).
Proof.
  destruct Hvalid.
  pose proof (flags_word_bits (present (rekeyStep r)) (present (rekeyExchange r))
                (present (adminId r)) (present (ttl r))) as (Hf & _).
  pose proof (flags_word_present r H3 H4 H5 H6) as Hflags.
  unfold buildBytesFromSecretChat.
  match goal with
  | |- context [Int.write (if present (ttl r) then ?a else ?b)] =>
      change (if present (ttl r) then a else b)
        with (flags_word (present (rekeyStep r)) (present (rekeyExchange r))
                (present (adminId r)) (present (ttl r)))
  end.
  rewrite Hflags in *.
  cbv zeta. repeat step_write.
  unfold secretChat_layout, required_bytes.
  rewrite <- ?app_assoc, ?app_nil_l. reflexivity.
Qed.

Lemma read_secretChat_layout rest :
  read_secretChat (secretChat_layout r ++ rest) = Ok (r, rest).
Proof.
  destruct Hvalid.
  pose proof (flags_word_bits (present (rekeyStep r)) (present (rekeyExchange r))
                (present (adminId r)) (present (ttl r))) as (Hf & F3 & F4 & F5 & F6).
  rewrite (flags_word_present r H3 H4 H5 H6) in *.
  unfold secretChat_layout, required_bytes, read_secretChat.
  rewrite <- ?app_assoc.
  repeat step_read. rewrite F3, F4, F5, F6.
  repeat step_read. destruct r; reflexivity.
Qed.

Lemma flags_of_layout :
  run Int.read (secretChat_layout r) = Ok (flags_of r).
Proof.
  pose proof (flags_word_bits (present (rekeyStep r)) (present (rekeyExchange r))
                (present (adminId r)) (present (ttl r))) as (Hf & _).
  rewrite (flags_word_present r H3 H4 H5 H6) in Hf.
  unfold secretChat_layout, run.
  now rewrite Int_read_le_bytes by assumption.
Qed.
End SecretChatWire.

Lemma Ok_inj {A} (a b : A) : Ok a = Ok b → a = b.
Proof. congruence. Qed.

Lemma reader_bind_inv {A B} (m : reader A) (f : A → reader B) bs y :
  (m ≫= f) bs = Ok y → ∃ a bs', m bs = Ok (a, bs') ∧ f a bs' = Ok y.
Proof.
  unfold mbind, reader_bind. destruct (m bs) as [[a bs']|]; [eauto | discriminate].
Qed.

Ltac inv_bind H :=
  repeat (apply result_bind_Ok in H;
          let a := fresh "b" in let E := fresh "E" in
          destruct H as (a & E & H); cbv beta zeta in H).

Ltac inv_read H :=
  repeat (apply reader_bind_inv in H;
          let a := fresh "x" in let bs := fresh "bs" in let E := fresh "E" in
          destruct H as (a & bs & E & H); cbv beta zeta in H).

Lemma optional_write_extends (c : bool) (w : result (list byte)) acc y :
  (if c then b ← w; mret (acc ++ b) else mret acc) = Ok y → ∃ t, y = acc ++ t.
Proof.
  destruct c; intros H.
  - apply result_bind_Ok in H as (b & _ & H). injection H as <-. eauto.
  - injection H as <-. exists []. now rewrite app_nil_r.
Qed.

(** The first four bytes written for a secret chat are its flags word, one
    bit per optional field that is truthy. *)
Lemma buildBytesFromSecretChat_flags r bytes :
  buildBytesFromSecretChat r = Ok bytes →
  run Int.read bytes
  = Ok (flags_word (present (rekeyStep r)) (present (rekeyExchange r))
                   (present (adminId r)) (present (ttl r))).
Proof.
  pose proof (flags_word_bits (present (rekeyStep r)) (present (rekeyExchange r))
                (present (adminId r)) (present (ttl r))) as (Hf & _).
  unfold buildBytesFromSecretChat.
  match goal with
  | |- context [Int.write (if present (ttl r) then ?a else ?b)] =>
      change (if present (ttl r) then a else b)
        with (flags_word (present (rekeyStep r)) (present (rekeyExchange r))
                (present (adminId r)) (present (ttl r)))
  end.
  set (flags := flags_word _ _ _ _) in *.
  cbv zeta. rewrite (result_bind_Ok_l _ _ _ (Int_write_ok flags Hf)).
  rewrite app_nil_l. intros H.
  do 12 (apply result_bind_Ok in H; destruct H as (? & _ & H)).
  do 4 (apply result_bind_Ok in H; destruct H as (? & E & H);
        apply optional_write_extends in E; destruct E as (? & ->)).
  apply Ok_inj in H. subst bytes. rewrite <- ?app_assoc. unfold run.
  now rewrite Int_read_le_bytes by assumption.
Qed.

(** Likewise for a peer, after the marker byte. *)
Lemma buildBytesFromPeer_flags r bytes :
  buildBytesFromPeer r = Ok bytes →
  head bytes = Some "002"%byte
  ∧ ∃ flags, run Int.read (drop 1 bytes) = Ok flags
      ∧ flag flags 4 = has_usernames r ∧ flag flags 5 = has_phoneNumber r.
Proof.
  unfold buildBytesFromPeer. cbv zeta.
  set (flags := if has_phoneNumber r then _ else _).
  assert (Hf : int32 flags ∧ flag flags 4 = has_usernames r
               ∧ flag flags 5 = has_phoneNumber r).
  { subst flags. destruct (has_usernames r), (has_phoneNumber r);
      vm_compute; intuition congruence. }
  destruct Hf as (Hf & F4 & F5).
  rewrite (result_bind_Ok_l _ _ _ (Int_write_ok flags Hf)).
  rewrite app_nil_l. intros H.
  do 3 (apply result_bind_Ok in H; destruct H as (? & _ & H)).
  do 2 (apply result_bind_Ok in H; destruct H as (? & E & H);
        apply optional_write_extends in E; destruct E as (? & ->)).
  apply Ok_inj in H. subst bytes. split; [reflexivity|]. exists flags.
  match goal with
  | |- context [drop 1 (["002"%byte] ++ ?l)] =>
      change (drop 1 (["002"%byte] ++ l)) with l
  end.
  rewrite <- ?app_assoc. unfold run.
  now rewrite Int_read_le_bytes by assumption.
Qed.

(** A decoded peer: three required slots, then what bit 4 and bit 5 add. *)
Lemma read_peer_shape wrap bs results rest :
  read_peer wrap bs = Ok (results, rest) →
  ∃ id accessHash kind (username phoneNumber : list string),
    results = [JBigInt id; JBigInt accessHash; JStr kind]
              ++ (wrap <$> username) ++ (JStr <$> phoneNumber)
    ∧ (length username ≤ 1)%nat ∧ (length phoneNumber ≤ 1)%nat.
Proof.
  unfold read_peer. intros H. cbv zeta in H.
  apply reader_bind_inv in H as (flags & b1 & _ & H).
  apply reader_bind_inv in H as (i & b2 & _ & H).
  apply reader_bind_inv in H as (a & b3 & _ & H).
  apply reader_bind_inv in H as (k & b4 & _ & H).
  apply reader_bind_inv in H as (r1 & b5 & E1 & H).
  apply reader_bind_inv in H as (r2 & b6 & E2 & H).
  apply Ok_inj in H. injection H as <- <-.
  exists i, a, k.
  assert (∃ username, r1 = [JBigInt i; JBigInt a; JStr k] ++ (wrap <$> username)
                      ∧ (length username ≤ 1)%nat) as (us & -> & Hus).
  { destruct (flag flags 4).
    - apply reader_bind_inv in E1 as (u & ? & _ & E1).
      apply Ok_inj in E1. injection E1 as <- <-. exists [u]. split; [reflexivity | simpl; lia].
    - apply Ok_inj in E1. injection E1 as <- <-. exists []. split; [reflexivity | simpl; lia]. }
  exists us.
  destruct (flag flags 5).
  - apply reader_bind_inv in E2 as (p & ? & _ & E2).
    apply Ok_inj in E2. injection E2 as <- <-. exists [p].
    split; [cbn [fmap list_fmap]; rewrite <- ?app_assoc; reflexivity
           | split; [exact Hus | simpl; lia]].
  - apply Ok_inj in E2. injection E2 as <- <-. exists [].
    split; [cbn [fmap list_fmap]; rewrite ?app_nil_r; reflexivity
           | split; [exact Hus | simpl; lia]].
Qed.

(** The current branch never yields an array. *)
Lemma buildPeerFromBytes_marked_no_array bytes results :
  head bytes = Some "002"%byte →
  buildPeerFromBytes bytes = Ok results →
  ∀ v, v ∈ results → is_array v = false.
Proof.
  intros Hm. unfold buildPeerFromBytes. rewrite decide_True by exact Hm.
  unfold run. destruct (read_peer JStr (drop 1 bytes)) as [[res rest]|] eqn:E;
    [|discriminate].
  cbn. intros [= <-] v Hv.
  apply read_peer_shape in E as (i & a & k & us & ps & -> & _ & _).
  rewrite !elem_of_app, !elem_of_cons, !list_elem_of_fmap in Hv.
  destruct Hv as [[->|[->|[->|Hv]]]|[(? & -> & _)|(? & -> & _)]];
    try reflexivity.
  now apply elem_of_nil in Hv.
Qed.

(** X1. Whatever the previous encoder wrote does not start with the marker
    byte 2 and is read back by the fallback branch as id, accessHash and
    type, then the username wrapped in a one-element array if the tuple had
    a non-empty one, then the phone number if the tuple had a non-empty one.
    Nothing is pushed for a field that is not there: without a username the
    phone number comes back in slot 3. *)
Lemma legacy_roundtrip (r : Legacy.Peer) :
  Legacy_valid r →
  ∃ bytes,
    Legacy.buildBytesFromPeer r = Ok bytes
    ∧ head bytes ≠ Some "002"%byte
    ∧ buildPeerFromBytes bytes = Ok (legacy_pushed r).
Proof.
  intros (Hid & Hah & Hty & Hus & Hph).
  unfold Legacy.buildBytesFromPeer, legacy_pushed. cbv zeta.
  destruct (Legacy.truthy_string (Legacy.peer_username r)),
           (Legacy.truthy_string (Legacy.peer_phoneNumber r));
    cbv iota;
    (erewrite result_bind_Ok_l by (apply Int_write_ok; vm_compute; split; congruence));
    cbv beta; repeat step_write;
    cbn [mret result_ret mbind result_bind];
    (eexists; split; [reflexivity|]);
    rewrite <- ?app_assoc, ?app_nil_l;
    (split; [vm_compute; congruence|]);
    unfold buildPeerFromBytes;
    (rewrite decide_False by (vm_compute; congruence));
    unfold run, read_peer; cbv zeta;
    (erewrite reader_bind_Ok
       by (apply Int_read_le_bytes; vm_compute; split; congruence));
    cbv beta; eval_flags; repeat step_read; reflexivity.
Qed.

(** X3. With a username on the tuple, the decoded array differs from it in
    slot 3 at least. *)
Lemma peer_roundtrip_never_with_usernames r bytes results :
  has_usernames r = true →
  buildBytesFromPeer r = Ok bytes →
  buildPeerFromBytes bytes = Ok results →
  ¬ same_peer results (peer_array r).
Proof.
  intros Hu He Hd Hsame.
  apply buildBytesFromPeer_flags in He as (Hm & _).
  pose proof (buildPeerFromBytes_marked_no_array _ _ Hm Hd) as Hno.
  specialize (Hsame 3%nat ltac:(lia)).
  unfold has_usernames in Hu. unfold peer_array in Hsame.
  destruct (peer_username r) as [l|]; [|discriminate].
  unfold Session.at_ in Hsame. cbn [nth] in Hsame.
  destruct (nth_in_or_default 3 results JUndefined) as [Hin|Hdef].
  - apply list_elem_of_In, Hno in Hin. rewrite Hsame in Hin. discriminate.
  - rewrite Hdef in Hsame. discriminate.
Qed.

(** ** Further facts about the codecs *)

Import More.

(** X2. A valid peer tuple without usernames is written and read back slot
    by slot: id, accessHash and type, then the phone number if there is
    one (in slot 3, since nothing is pushed for the usernames). *)
Theorem peer_roundtrip_without_usernames (r : Peer) :
  Peer_valid r → has_usernames r = false →
  ∃ bytes,
    buildBytesFromPeer r = Ok bytes
    ∧ head bytes = Some "002"%byte
    ∧ buildPeerFromBytes bytes = Ok (pushed r).
Proof.
  intros (Hid & Hah & Hty & Hph) Hu.
  unfold buildBytesFromPeer, pushed. cbv zeta. rewrite Hu.
  destruct (has_phoneNumber r);
    cbv iota;
    (erewrite result_bind_Ok_l by (apply Int_write_ok; vm_compute; split; congruence));
    cbv beta; repeat step_write;
    cbn [mret result_ret mbind result_bind];
    (eexists; split; [reflexivity|]);
    rewrite <- ?app_assoc, ?app_nil_l;
    (split; [reflexivity|]);
    unfold buildPeerFromBytes;
    (rewrite decide_True by reflexivity);
    match goal with
    | |- context [drop 1 (["002"%byte] ++ ?l)] =>
        change (drop 1 (["002"%byte] ++ l)) with l
    end;
    unfold run, read_peer; cbv zeta;
    (erewrite reader_bind_Ok
       by (apply Int_read_le_bytes; vm_compute; split; congruence));
    cbv beta; eval_flags; repeat step_read; reflexivity.
Qed.

Lemma peer_roundtrip_without_usernames_witness :
  ∃ bytes,
    buildBytesFromPeer phone_only_peer = Ok bytes
    ∧ head bytes = Some "002"%byte
    ∧ buildPeerFromBytes bytes = Ok (pushed phone_only_peer).
Proof.
  apply (peer_roundtrip_without_usernames phone_only_peer).
  - repeat split; vm_compute; congruence.
  - reflexivity.
Defined.

(** X6. The previous revision round-trips its own tuples slot by slot:
    what [buildBytesFromPeer] of that revision wrote, its
    [buildPeerFromBytes] reads back as id, accessHash, type, then the
    username if it is not empty, then the phone number if it is not empty. *)
Theorem previous_roundtrip (r : Legacy.Peer) :
  Legacy_valid r →
  ∃ bytes,
    Legacy.buildBytesFromPeer r = Ok bytes
    ∧ Previous.buildPeerFromBytes bytes = Ok (previous_pushed r).
Proof.
  intros (Hid & Hah & Hty & Hus & Hph).
  unfold Legacy.buildBytesFromPeer, previous_pushed. cbv zeta.
  destruct (Legacy.truthy_string (Legacy.peer_username r)),
           (Legacy.truthy_string (Legacy.peer_phoneNumber r));
    cbv iota;
    (erewrite result_bind_Ok_l by (apply Int_write_ok; vm_compute; split; congruence));
    cbv beta; repeat step_write;
    cbn [mret result_ret mbind result_bind];
    (eexists; split; [reflexivity|]);
    rewrite <- ?app_assoc, ?app_nil_l;
    unfold Previous.buildPeerFromBytes, run, read_peer; cbv zeta;
    (erewrite reader_bind_Ok
       by (apply Int_read_le_bytes; vm_compute; split; congruence));
    cbv beta; eval_flags; repeat step_read; reflexivity.
Qed.

Lemma previous_roundtrip_witness :
  ∃ bytes,
    Legacy.buildBytesFromPeer example_legacy_peer = Ok bytes
    ∧ Previous.buildPeerFromBytes bytes = Ok (previous_pushed example_legacy_peer).
Proof.
  apply (previous_roundtrip example_legacy_peer).
  repeat split; vm_compute; congruence.
Defined.

Lemma absent_if_falsy_nonzero f : absent_if_falsy f ≠ Some 0.
Proof.
  unfold absent_if_falsy, present. destruct f as [v|]; [|discriminate].
  destruct (Z.eqb_spec v 0); cbn; congruence.
Qed.

Lemma absent_if_falsy_default f : default 0 (absent_if_falsy f) = default 0 f.
Proof.
  unfold absent_if_falsy, present. destruct f as [v|]; [|reflexivity].
  destruct (Z.eqb_spec v 0); cbn; congruence.
Qed.

Lemma normalize_valid r : SecretChat_valid r → SecretChat_valid (normalize r).
Proof.
  intros []. constructor; try assumption; cbn;
    rewrite absent_if_falsy_default; assumption.
Qed.

Lemma buildBytesFromSecretChat_normalize r :
  buildBytesFromSecretChat r = buildBytesFromSecretChat (normalize r).
Proof.
  destruct r as [i a ad k m l s1 s2 s3 s4 t c1 c2 o3 o4 o5 o6].
  unfold normalize, with_optional, absent_if_falsy. 
  cbn [id accessHash isAdmin authKey mtproto layer inSeqNo outSeqNo inSeqNoX outSeqNoX
       timeRekey created changed rekeyStep rekeyExchange adminId ttl].
  destruct o3 as [v3|], o4 as [v4|], o5 as [v5|], o6 as [v6|];
    cbn [present];
    repeat match goal with
    | |- context [?v =? 0] => destruct (Z.eqb_spec v 0); subst
    end;
    reflexivity.
Qed.

(** The encoder and the decoder on a valid chat, through its wire layout. *)
Lemma secretChat_through_layout r :
  SecretChat_valid r →
  buildBytesFromSecretChat r = Ok (secretChat_layout (normalize r))
  ∧ buildSecretChatFromBytes (secretChat_layout (normalize r)) = Ok (normalize r).
Proof.
  intros Hv. pose proof (normalize_valid r Hv) as Hn.
  split.
  - rewrite buildBytesFromSecretChat_normalize.
    apply buildBytesFromSecretChat_layout; try exact Hn;
      apply absent_if_falsy_nonzero.
  - unfold buildSecretChatFromBytes, run.
    rewrite <- (app_nil_r (secretChat_layout (normalize r))).
    rewrite read_secretChat_layout; try exact Hn; try reflexivity;
      apply absent_if_falsy_nonzero.
Qed.

(** X4. For every valid secret chat, decoding what was encoded gives the
    chat with its zero-valued optional fields taken away; every other field
    comes back as it was. *)
Theorem secretChat_decode_encode (r : SecretChat) :
  SecretChat_valid r →
  ∃ bytes,
    buildBytesFromSecretChat r = Ok bytes
    ∧ buildSecretChatFromBytes bytes = Ok (normalize r).
Proof.
  intros Hv. exists (secretChat_layout (normalize r)).
  now apply secretChat_through_layout.
Qed.

Lemma secretChat_decode_encode_witness :
  ∃ bytes,
    buildBytesFromSecretChat zero_ttl_chat = Ok bytes
    ∧ buildSecretChatFromBytes bytes = Ok (normalize zero_ttl_chat).
Proof.
  apply (secretChat_decode_encode zero_ttl_chat).
  constructor; first [vm_compute; split; congruence | vm_compute; reflexivity].
Defined.

(** X5. Decoding loses nothing the encoder keeps: for every valid secret
    chat, encoding the decoded chat gives the bytes it was decoded from. *)
Theorem secretChat_reencode (r : SecretChat) :
  SecretChat_valid r →
  ∃ bytes decoded,
    buildBytesFromSecretChat r = Ok bytes
    ∧ buildSecretChatFromBytes bytes = Ok decoded
    ∧ buildBytesFromSecretChat decoded = Ok bytes.
Proof.
  intros Hv. destruct (secretChat_through_layout r Hv) as (He & Hd).
  exists (secretChat_layout (normalize r)), (normalize r).
  split; [exact He|]. split; [exact Hd|].
  now rewrite <- buildBytesFromSecretChat_normalize.
Qed.

Lemma secretChat_reencode_witness :
  ∃ bytes decoded,
    buildBytesFromSecretChat example_chat = Ok bytes
    ∧ buildSecretChatFromBytes bytes = Ok decoded
    ∧ buildBytesFromSecretChat decoded = Ok bytes.
Proof.
  apply (secretChat_reencode example_chat).
  constructor; first [vm_compute; split; congruence | vm_compute; reflexivity].
Defined.

(** The hex string of a buffer decodes to the buffer. *)
Lemma hex_value_digit n : (n < 16)%N → hex_value (hex_digit n) = Some n.
Proof.
  intros H.
  assert (n = 0 ∨ n = 1 ∨ n = 2 ∨ n = 3 ∨ n = 4 ∨ n = 5 ∨ n = 6 ∨ n = 7
          ∨ n = 8 ∨ n = 9 ∨ n = 10 ∨ n = 11 ∨ n = 12 ∨ n = 13 ∨ n = 14
          ∨ n = 15)%N as Hn by lia.
  repeat (destruct Hn as [->|Hn]; [reflexivity|]). subst. reflexivity.
Qed.

Lemma hex_bytes_toString_hex bs : hex_bytes (toString_hex bs) = bs.
Proof.
  induction bs as [|b bs IH]; [reflexivity|].
  cbn [toString_hex hex_bytes].
  pose proof (Byte.to_N_bounded b) as Hb.
  rewrite !hex_value_digit.
  - rewrite IH. f_equal.
    rewrite <- N.div_mod by lia. apply byte_of_Z_of_byte.
  - apply N.mod_lt. lia.
  - apply N.Div0.div_lt_upper_bound. lia.
Qed.

Lemma legacy_roundtrip_witness :
  ∃ bytes,
    Legacy.buildBytesFromPeer example_legacy_peer = Ok bytes
    ∧ head bytes ≠ Some "002"%byte
    ∧ buildPeerFromBytes bytes = Ok (legacy_pushed example_legacy_peer).
Proof.
  apply (legacy_roundtrip example_legacy_peer).
  repeat split; vm_compute; congruence.
Defined.

Lemma peer_roundtrip_never_with_usernames_witness :
  ¬ same_peer example_peer_decoded (peer_array example_peer).
Proof.
  apply (peer_roundtrip_never_with_usernames example_peer example_peer_bytes).
  - reflexivity.
  - vm_compute. reflexivity.
  - vm_compute. reflexivity.
Defined.

End CodecFacts.

(** * The claims about the codecs *)

Import Raws Js Storages Codec Vocabulary.

(** C1. The peer codec is meant to round-trip: decoding what
    [buildBytesFromPeer] wrote should give the tuple back. It does not. For
    the tuple [[123n, 456n, "user", ["alice","Bob"], undefined]] the decoder
    reads the vector written for the usernames as one string, so slot 3 of
    the result is a string, not the array of usernames; for a tuple with a
    phone number and no username the phone number comes back in slot 3, the
    username slot. *)
Theorem peer_roundtrip_broken :
  (∃ results,
     (buildBytesFromPeer example_peer ≫= buildPeerFromBytes) = Ok results
     ∧ length results = 4%nat
     ∧ Session.at_ (peer_array example_peer) 3 = JArr ["alice"; "Bob"]%string
     ∧ is_array (Session.at_ results 3) = false
     ∧ ¬ same_peer results (peer_array example_peer))
  ∧ (buildBytesFromPeer phone_only_peer ≫= buildPeerFromBytes)
    = Ok [JBigInt 123; JBigInt 456; JStr "user"; JStr "15550100"]
  ∧ ¬ same_peer [JBigInt 123; JBigInt 456; JStr "user"; JStr "15550100"]
                (peer_array phone_only_peer).
Proof.
  split; [|split].
  - eexists. split; [vm_compute; reflexivity|].
    split; [reflexivity|]. split; [reflexivity|]. split; [reflexivity|].
    intros H. specialize (H 3%nat ltac:(lia)). vm_compute in H. discriminate.
  - vm_compute. reflexivity.
  - intros H. specialize (H 3%nat ltac:(lia)). vm_compute in H. discriminate.
Qed.

(** C2, as stated, fails: a valid secret chat whose [ttl] is there with the
    value zero is written without it, and decodes to the chat without
    [ttl]. The two chats are different and valid and have the same bytes,
    so no decoder could give both back. *)
Lemma secretChat_zero_ttl_lost :
  SecretChat_valid zero_ttl_chat
  ∧ SecretChat_valid absent_ttl_chat
  ∧ ttl zero_ttl_chat = Some 0
  ∧ zero_ttl_chat ≠ absent_ttl_chat
  ∧ buildBytesFromSecretChat zero_ttl_chat = Ok zero_ttl_bytes
  ∧ buildBytesFromSecretChat absent_ttl_chat = Ok zero_ttl_bytes
  ∧ buildSecretChatFromBytes zero_ttl_bytes = Ok absent_ttl_chat
  ∧ (buildBytesFromSecretChat zero_ttl_chat ≫= buildSecretChatFromBytes)
    ≠ Ok zero_ttl_chat.
Proof.
  split; [|split].
  - constructor; first [vm_compute; split; congruence | vm_compute; reflexivity].
  - constructor; first [vm_compute; split; congruence | vm_compute; reflexivity].
  - repeat split; try (vm_compute; reflexivity); vm_compute; congruence.
Qed.

(** C2, amended. For every valid secret chat each of whose four optional
    fields is absent or non-zero (all sixteen combinations), the encoder
    succeeds, the decoder gives the chat back, the bytes are the flags word,
    the required fields and exactly the optional fields that are there, and
    the flags word has bit 3, 4, 5, 6 set exactly for those fields. *)
Theorem secretChat_roundtrip (r : SecretChat) :
  SecretChat_valid r →
  rekeyStep r ≠ Some 0 → rekeyExchange r ≠ Some 0 →
  adminId r ≠ Some 0 → ttl r ≠ Some 0 →
  ∃ bytes,
    buildBytesFromSecretChat r = Ok bytes
    ∧ buildSecretChatFromBytes bytes = Ok r
    ∧ bytes = secretChat_layout r
    ∧ run Int.read bytes = Ok (flags_of r).
Proof.
  intros Hv H3 H4 H5 H6. exists (secretChat_layout r).
  split; [now apply buildBytesFromSecretChat_layout|].
  split; [|split; [reflexivity | now apply flags_of_layout]].
  unfold buildSecretChatFromBytes, run.
  rewrite <- (app_nil_r (secretChat_layout r)).
  now rewrite read_secretChat_layout.
Qed.

Lemma secretChat_roundtrip_witness :
  ∃ bytes,
    buildBytesFromSecretChat example_chat = Ok bytes
    ∧ buildSecretChatFromBytes bytes = Ok example_chat
    ∧ bytes = secretChat_layout example_chat
    ∧ run Int.read bytes = Ok (flags_of example_chat).
Proof.
  apply (secretChat_roundtrip example_chat).
  - constructor; first [vm_compute; split; congruence | vm_compute; reflexivity].
  - discriminate.
  - discriminate.
  - discriminate.
  - discriminate.
Defined.

(** C6. A buffer without the marker byte is meant to decode, per the legacy
    layout, to a record with a username sequence of at most one element and
    the optional phone number. It does not when only the phone number is
    there. For the bytes the previous encoder wrote for
    [[123n, 456n, "user", undefined, "15550100"]] (bit 5 set, bit 4 unset,
    first byte not 2) the legacy layout gives the record without username
    and with the phone number; the decoder pushes nothing for the username,
    so the phone number is in slot 3, the username slot, which is then
    neither a sequence nor absent, and slot 4, the phone number's, is
    empty. *)
Theorem legacy_phone_in_username_slot :
  Legacy.buildBytesFromPeer legacy_phone_only_peer = Ok legacy_phone_only_bytes
  ∧ head legacy_phone_only_bytes ≠ Some "002"%byte
  ∧ run legacy_record legacy_phone_only_bytes = Ok phone_only_peer
  ∧ peer_array phone_only_peer
    = [JBigInt 123; JBigInt 456; JStr "user"; JUndefined; JStr "15550100"]
  ∧ ∃ results,
      buildPeerFromBytes legacy_phone_only_bytes = Ok results
      ∧ results = [JBigInt 123; JBigInt 456; JStr "user"; JStr "15550100"]
      ∧ Session.at_ results 3 = JStr "15550100"
      ∧ is_array (Session.at_ results 3) = false
      ∧ Session.at_ results 4 = JUndefined
      ∧ ¬ same_peer results (peer_array phone_only_peer).
Proof.
  split; [vm_compute; reflexivity|].
  split; [vm_compute; congruence|].
  split; [vm_compute; reflexivity|].
  split; [reflexivity|].
  eexists. split; [vm_compute; reflexivity|].
  split; [reflexivity|]. split; [reflexivity|]. split; [reflexivity|].
  split; [reflexivity|].
  intros H. specialize (H 3%nat ltac:(lia)). vm_compute in H. discriminate.
Qed.

(** C9. An empty array of usernames is encoded as no usernames at all: the
    two tuples give the same bytes (or the same exception); and in what is
    written bit 4 of the flags word is set exactly when the array is there
    and not empty. *)
Theorem empty_usernames_as_absent (r : Peer) :
  buildBytesFromPeer (with_username (Some []) r)
  = buildBytesFromPeer (with_username None r)
  ∧ ∀ bytes,
      buildBytesFromPeer r = Ok bytes →
      ∃ flags,
        run Int.read (drop 1 bytes) = Ok flags
        ∧ flag flags 4 = has_usernames r.
Proof.
  split; [reflexivity|].
  intros bytes H.
  apply buildBytesFromPeer_flags in H as (_ & flags & Hr & F4 & _).
  eauto.
Qed.

Lemma empty_usernames_as_absent_witness :
  buildBytesFromPeer (with_username (Some []) example_peer)
  = buildBytesFromPeer (with_username None example_peer)
  ∧ ∃ flags,
      run Int.read (drop 1 example_peer_bytes) = Ok flags
      ∧ flag flags 4 = has_usernames example_peer.
Proof.
  split.
  - apply (proj1 (empty_usernames_as_absent example_peer)).
  - apply (proj2 (empty_usernames_as_absent example_peer)).
    vm_compute. reflexivity.
Defined.

(** C10. A zero-valued optional field of a secret chat is encoded as an
    absent one: for each of [rekeyStep], [rekeyExchange], [adminId] and
    [ttl], the chat with the field zero and the chat without it give the
    same bytes; and in what is written each flag bit is set exactly when its
    field is truthy, so it is unset for an absent or zero field. *)
Theorem falsy_optional_as_absent (r : SecretChat) (o3 o4 o5 o6 : option Z) :
  buildBytesFromSecretChat (with_optional (Some 0) o4 o5 o6 r)
  = buildBytesFromSecretChat (with_optional None o4 o5 o6 r)
  ∧ buildBytesFromSecretChat (with_optional o3 (Some 0) o5 o6 r)
    = buildBytesFromSecretChat (with_optional o3 None o5 o6 r)
  ∧ buildBytesFromSecretChat (with_optional o3 o4 (Some 0) o6 r)
    = buildBytesFromSecretChat (with_optional o3 o4 None o6 r)
  ∧ buildBytesFromSecretChat (with_optional o3 o4 o5 (Some 0) r)
    = buildBytesFromSecretChat (with_optional o3 o4 o5 None r)
  ∧ buildBytesFromSecretChat (with_optional o3 o4 o5 o6 r)
    = buildBytesFromSecretChat
        (with_optional (absent_if_falsy o3) (absent_if_falsy o4)
                       (absent_if_falsy o5) (absent_if_falsy o6) r)
  ∧ ∀ bytes,
      buildBytesFromSecretChat r = Ok bytes →
      ∃ flags,
        run Int.read bytes = Ok flags
        ∧ flag flags 3 = present (rekeyStep r)
        ∧ flag flags 4 = present (rekeyExchange r)
        ∧ flag flags 5 = present (adminId r)
        ∧ flag flags 6 = present (ttl r).
Proof.
  repeat split; try reflexivity.
  - unfold absent_if_falsy.
    destruct o3 as [v3|], o4 as [v4|], o5 as [v5|], o6 as [v6|];
      cbn [present];
      repeat match goal with
      | |- context [?v =? 0] => destruct (Z.eqb_spec v 0); subst
      end;
      reflexivity.
  - intros bytes H. apply buildBytesFromSecretChat_flags in H.
    eexists. split; [exact H|].
    pose proof (flags_word_bits (present (rekeyStep r)) (present (rekeyExchange r))
                  (present (adminId r)) (present (ttl r))) as (_ & F3 & F4 & F5 & F6).
    auto.
Qed.

Lemma falsy_optional_as_absent_witness :
  ∃ flags,
    run Int.read zero_ttl_bytes = Ok flags
    ∧ flag flags 3 = present (rekeyStep zero_ttl_chat)
    ∧ flag flags 4 = present (rekeyExchange zero_ttl_chat)
    ∧ flag flags 5 = present (adminId zero_ttl_chat)
    ∧ flag flags 6 = present (ttl zero_ttl_chat).
Proof.
  apply (proj2 (proj2 (proj2 (proj2 (proj2
    (falsy_optional_as_absent zero_ttl_chat None None None None)))))).
  vm_compute. reflexivity.
Defined.

(** * Facts about the session store *)

Section SessionFacts.
Import Session.

Lemma strict_eq_JNum n v : strict_eq (JNum n) v = true ↔ v = JNum n.
Proof.
  destruct v; simpl; split; try discriminate; intros H.
  - apply Z.eqb_eq in H. now subst.
  - injection H as ->. apply Z.eqb_refl.
Qed.

Lemma set_connected_id s : connected s = true → set_connected true s = s.
Proof. destruct s; simpl; now intros ->. Qed.

Lemma append_cons a (s t : string) : String a s +:+ t = String a (s +:+ t).
Proof. reflexivity. Qed.

Lemma append_nil_l (s : string) : "" +:+ s = s.
Proof. reflexivity. Qed.

Lemma append_inj_r (p a b : string) : p +:+ a = p +:+ b → a = b.
Proof.
  induction p as [|c p IH]; [now rewrite !append_nil_l|].
  rewrite !append_cons. intros [= H]. auto.
Qed.

Lemma prefix_app_free (d s t k : string) :
  d ≠ ""%string → free_of d s → free_of d t →
  String.prefix (s +:+ d) k = true → String.prefix (t +:+ d) k = true →
  s = t.
Proof.
  intros Hd. destruct d as [|c d']; [congruence|]. clear Hd.
  revert t k. induction s as [|a s IH]; intros [|b t] k Hs Ht Ps Pt.
  - reflexivity.
  - exfalso. destruct k as [|x k]; [discriminate|].
    rewrite ?append_cons, ?append_nil_l in Ps; rewrite ?append_cons, ?append_nil_l in Pt; cbn in Ps, Pt. destruct (ascii_dec c x); [subst x|discriminate].
    destruct (ascii_dec b c); [subst b|discriminate].
    destruct Ht as [Hb _]. apply Hb. now left.
  - exfalso. destruct k as [|x k]; [discriminate|].
    rewrite ?append_cons, ?append_nil_l in Ps; rewrite ?append_cons, ?append_nil_l in Pt; cbn in Ps, Pt. destruct (ascii_dec c x); [subst x|discriminate].
    destruct (ascii_dec a c); [subst a|discriminate].
    destruct Hs as [Ha _]. apply Ha. now left.
  - destruct k as [|x k]; [discriminate|].
    rewrite ?append_cons, ?append_nil_l in Ps; rewrite ?append_cons, ?append_nil_l in Pt; cbn in Ps, Pt.
    destruct (ascii_dec a x); [subst x|discriminate].
    destruct (ascii_dec b a); [subst b|discriminate].
    destruct Hs as [_ Hs], Ht as [_ Ht]. f_equal. eauto.
Qed.

Lemma delete_body_eval p key w :
  delete_body p key w
  = (Ok None,
     if startsWith key p
     then {| this := this w; redis := base.delete key (redis w) |}
     else w).
Proof. unfold delete_body. destruct (startsWith key p); reflexivity. Qed.

Lemma iterate_delete p keys w :
  ∃ w', iterate keys (delete_body p) w = (Ok None, w')
    ∧ this w' = this w
    ∧ ∀ k, redis w' !! k
           = if bool_decide (k ∈ keys) && startsWith k p then None
             else redis w !! k.
Proof.
  revert w. induction keys as [|key keys IH]; intros w.
  - exists w. split; [reflexivity|]. split; [reflexivity|].
    intros k. rewrite bool_decide_eq_false_2 by apply not_elem_of_nil. reflexivity.
  - cbn [iterate]. unfold mbind at 1, method_bind at 1.
    rewrite delete_body_eval. cbv beta iota.
    destruct (startsWith key p) eqn:Hp.
    + destruct (IH {| this := this w; redis := base.delete key (redis w) |})
        as (w' & -> & Ht & Hl).
      exists w'. split; [reflexivity|]. split; [exact Ht|].
      intros k. rewrite Hl. cbn [redis].
      destruct (decide (k = key)) as [->|Hne].
      * rewrite Hp, lookup_delete_eq.
        rewrite (bool_decide_eq_true_2 (key ∈ key :: keys)) by left.
        now destruct (bool_decide (key ∈ keys)).
      * rewrite lookup_delete_ne by congruence.
        rewrite (bool_decide_ext (k ∈ key :: keys) (k ∈ keys)); [reflexivity|].
        rewrite elem_of_cons. tauto.
    + destruct (IH w) as (w' & -> & Ht & Hl).
      exists w'. split; [reflexivity|]. split; [exact Ht|].
      intros k. rewrite Hl.
      destruct (decide (k = key)) as [->|Hne].
      * rewrite Hp, !andb_false_r. reflexivity.
      * rewrite (bool_decide_ext (k ∈ key :: keys) (k ∈ keys)); [reflexivity|].
        rewrite elem_of_cons. tauto.
Qed.

Lemma scanned_keys (m : gmap string entry) k :
  k ∈ (map_to_list m).*1 ↔ is_Some (m !! k).
Proof.
  rewrite list_elem_of_fmap. split.
  - intros ([k' e] & -> & H). apply elem_of_map_to_list in H. eauto.
  - intros [e H]. exists (k, e). split; [reflexivity|].
    now apply elem_of_map_to_list.
Qed.

Lemma _connect_eval w :
  _connect w = (Ok tt, {| this := set_connected true (this w); redis := redis w |}).
Proof.
  destruct w as [s m]. unfold _connect, mbind, method_bind, get_this.
  cbn [this redis fst snd].
  destruct (connected s) eqn:Hc; cbn [negb].
  - now rewrite set_connected_id.
  - reflexivity.
Qed.

Lemma delete_lookup w :
  ∃ w', delete w = (Ok tt, w')
    ∧ this w' = set_connected true (this w)
    ∧ ∀ k, redis w' !! k
           = if startsWith k (prefix (this w)) then None else redis w !! k.
Proof.
  unfold delete. unfold mbind at 1, method_bind at 1.
  rewrite _connect_eval.
  unfold mbind at 1, method_bind at 1, get_this. cbn [this redis].
  unfold mbind at 1, method_bind at 1, redis_scanIterator. cbn [this redis].
  unfold mbind at 1, method_bind at 1, for_await_of.
  change (prefix (set_connected true (this w))) with (prefix (this w)).
  destruct (iterate_delete (prefix (this w)) (map_to_list (redis w)).*1
              {| this := set_connected true (this w); redis := redis w |})
    as (w' & -> & Ht & Hl).
  exists w'. split; [reflexivity|]. split; [exact Ht|].
  intros k. rewrite Hl. cbn [redis].
  destruct (startsWith k (prefix (this w))); [|now rewrite andb_false_r].
  rewrite andb_true_r. case_bool_decide as Hin; [reflexivity|].
  rewrite scanned_keys in Hin.
  destruct (redis w !! k); [|reflexivity]. exfalso. eauto.
Qed.
(** [setAddress] evaluated: the object and the four writes. *)
Lemma setAddress_eval (w : world) (dcId : value) (ip : string)
    (port : value) (testMode : bool) :
  setAddress dcId ip port testMode w
  = (Ok tt,
     {| this := set_address (nullish dcId (JNum 2)) (JStr ip)
                            (nullish port (JNum 443)) (JBool testMode)
                            (set_connected true (this w));
        redis :=
          <[prefix (this w) +:+ "testMode" :=
              {| stored := String_ (JBool testMode); EX := _sessionExp (this w) |}]>
          (<[prefix (this w) +:+ "port" :=
              {| stored := String_ port; EX := _sessionExp (this w) |}]>
           (<[prefix (this w) +:+ "ip" :=
              {| stored := ip; EX := _sessionExp (this w) |}]>
            (<[prefix (this w) +:+ "dcId" :=
              {| stored := String_ dcId; EX := _sessionExp (this w) |}]>
             (redis w)))) |}).
Proof.
  unfold setAddress. unfold mbind at 1, method_bind at 1.
  rewrite _connect_eval.
  destruct w as [s m]. cbn [this redis].
  destruct s as [n d pe se c dc i po tm ak]. destruct se; reflexivity.
Qed.

End SessionFacts.

(** * The claims about the session store *)

Import Session.

(** C3. After [updatePeers([[123n, 456n, "user", ["alice","Bob"], undefined]])]
    the lookup [getPeerByUsername("bob")] is meant to find the peer. It does
    not: the peer is stored, but the lookup iterates the asynchronous scan
    with a plain [for ... of] and throws a TypeError; its loop body, run on
    the stored key, finds no match because the decoded slot 3 is a string,
    not an array; and an array of the stored usernames would not match
    either, since only the query is lowercased and ["Bob"] is stored as
    written. *)
Theorem getPeerByUsername_example_fails :
  answer (updatePeers [example_peer]) example_world = Ok tt
  ∧ redis world_with_example_peer !! "s:peer:123"%string
    = Some {| stored := toString_hex example_peer_bytes; EX := None |}
  ∧ answer (getPeerByUsername "bob") world_with_example_peer = Throw TypeError
  ∧ answer (getPeerByUsername_body (this world_with_example_peer)
                                   "bob" "s:peer:123")
           world_with_example_peer
    = Ok None
  ∧ username_matches (peer_array example_peer) "bob" = false
  ∧ username_matches (peer_array example_peer) "Bob" = false
  ∧ username_matches (peer_array example_peer) "ALICE" = true.
Proof.
  repeat split; vm_compute; reflexivity.
Qed.

(** C4. A point lookup of an absent key is meant to answer "nothing" without
    an error. Instead [getPeerById] and [getSecretChatById] throw a
    TypeError for every id and every content of the store, absent key
    included: the promise returned by [get] is not awaited, it is truthy,
    and [Buffer.from] rejects it. *)
Theorem point_lookup_throws (w : world) (id : Z) :
  answer (getPeerById id) w = Throw TypeError
  ∧ answer (getSecretChatById id) w = Throw TypeError.
Proof.
  unfold answer, getPeerById, getSecretChatById.
  split; unfold mbind at 1, method_bind at 1; rewrite _connect_eval; reflexivity.
Qed.

(** C5, as stated, fails: zero is falsy, and [setAddress(0, ip, 0, false)]
    keeps 0 as [_dcId] and as [_port] instead of the defaults 2 and 443. *)
Lemma setAddress_keeps_zero :
  truthy (JNum 0) = false
  ∧ _dcId (this (after (setAddress (JNum 0) "149.154.167.50" (JNum 0) false)
                       example_world)) ≠ JNum 2
  ∧ _port (this (after (setAddress (JNum 0) "149.154.167.50" (JNum 0) false)
                       example_world)) ≠ JNum 443.
Proof. repeat split; vm_compute; congruence. Qed.

(** C5, amended. [setAddress(dcId, ip, port, testMode)] succeeds and
    persists the four fields with the session expiry: each of the four keys
    [<name><delim>dcId], [...ip], [...port] and [...testMode] holds an entry
    with it, and no other key changes. The stored [ip] and [testMode] are
    the strings of the values given, and the stored [dcId] and [port] are
    the decimal numerals of the values given when these are integers of the
    safe range. In memory [_ip] and [_testMode] are the values given, and
    [_dcId] and [_port] are the values given with the defaults 2 and 443 in
    place of [undefined] and [null] only: a number, zero included, is
    kept. *)
Theorem setAddress_effect (w : world) (dcId : value) (ip : string)
    (port : value) (testMode : bool) :
  ∃ w',
    setAddress dcId ip port testMode w = (Ok tt, w')
    ∧ this w' = set_address (nullish dcId (JNum 2)) (JStr ip)
                            (nullish port (JNum 443)) (JBool testMode)
                            (set_connected true (this w))
    ∧ (dcId = JUndefined ∨ dcId = JNull → _dcId (this w') = JNum 2)
    ∧ (port = JUndefined ∨ port = JNull → _port (this w') = JNum 443)
    ∧ (∀ n, dcId = JNum n → _dcId (this w') = JNum n)
    ∧ (∀ n, port = JNum n → _port (this w') = JNum n)
    ∧ (∀ key, key ∈ address_keys (this w) →
         ∃ e, redis w' !! key = Some e ∧ EX e = _sessionExp (this w))
    ∧ (∀ key, key ∉ address_keys (this w) → redis w' !! key = redis w !! key)
    ∧ stored <$> redis w' !! (prefix (this w) +:+ "ip") = Some ip
    ∧ stored <$> redis w' !! (prefix (this w) +:+ "testMode")
      = Some (if testMode then "true" else "false")%string
    ∧ (∀ n, dcId = JNum n → Z.abs n <= 2 ^ 53 - 1 →
         stored <$> redis w' !! (prefix (this w) +:+ "dcId") = Some (pretty n))
    ∧ (∀ n, port = JNum n → Z.abs n <= 2 ^ 53 - 1 →
         stored <$> redis w' !! (prefix (this w) +:+ "port") = Some (pretty n)).
Proof.
  assert (Hne : ∀ p a b : string, a ≠ b → p +:+ a ≠ p +:+ b)
    by (intros p a b Hab H; apply Hab; exact (append_inj_r p a b H)).
  eexists. split; [apply setAddress_eval|].
  cbn [this redis].
  split; [reflexivity|].
  split; [intros [-> | ->]; reflexivity|].
  split; [intros [-> | ->]; reflexivity|].
  split; [intros n ->; reflexivity|].
  split; [intros n ->; reflexivity|].
  split.
  { intros key Hk. unfold address_keys in Hk.
    rewrite !elem_of_cons in Hk.
    destruct Hk as [-> | [-> | [-> | [-> | Hk]]]];
      [| | | |now apply elem_of_nil in Hk];
      rewrite ?(lookup_insert_ne (M:=gmap string)) by (apply Hne; discriminate);
      rewrite lookup_insert_eq; eexists; (split; reflexivity). }
  split.
  { intros key Hk. unfold address_keys in Hk.
    rewrite !not_elem_of_cons in Hk. destruct Hk as (H1 & H2 & H3 & H4 & _).
    rewrite !lookup_insert_ne by congruence. reflexivity. }
  split.
  { rewrite lookup_insert_ne by (apply Hne; discriminate).
    rewrite lookup_insert_ne by (apply Hne; discriminate).
    rewrite lookup_insert_eq. reflexivity. }
  split.
  { rewrite lookup_insert_eq. destruct testMode; reflexivity. }
  split.
  { intros n -> _.
    rewrite !lookup_insert_ne by (apply Hne; discriminate).
    rewrite lookup_insert_eq. reflexivity. }
  intros n -> _.
  rewrite lookup_insert_ne by (apply Hne; discriminate).
  rewrite lookup_insert_eq. reflexivity.
Qed.

Lemma setAddress_effect_witness :
  ∃ w',
    setAddress (JNum 4) "149.154.167.50" JUndefined true example_world = (Ok tt, w')
    ∧ _dcId (this w') = JNum 4
    ∧ _port (this w') = JNum 443
    ∧ stored <$> redis w' !! "s:dcId"%string = Some "4"%string
    ∧ stored <$> redis w' !! "s:ip"%string = Some "149.154.167.50"%string
    ∧ stored <$> redis w' !! "s:testMode"%string = Some "true"%string
    ∧ redis w' !! "t:dcId"%string = None.
Proof.
  destruct (setAddress_effect example_world (JNum 4) "149.154.167.50" JUndefined true)
    as (w' & E & _ & _ & Hp0 & Hd & _ & _ & Hfr & Hip & Htm & Hds & _).
  exists w'. split; [exact E|].
  split; [exact (Hd 4 eq_refl)|].
  split; [apply Hp0; left; reflexivity|].
  split; [apply (Hds 4 eq_refl); vm_compute; congruence|].
  split; [exact Hip|]. split; [exact Htm|].
  rewrite Hfr; [reflexivity|]. unfold address_keys.
  rewrite !not_elem_of_cons. repeat split; try (vm_compute; discriminate).
  apply not_elem_of_nil.
Defined.

(** C7. [setAuthKey(authKey, dcId)] with a [dcId] other than the stored
    [_dcId] changes neither the store nor the object; with the stored
    [_dcId] it records the key and stores its hex string under
    [<name><delim>authKey] with the session expiry. *)
Theorem setAuthKey_guard (w : world) (authKey : list byte) (dcId : Z) :
  (_dcId (this w) ≠ JNum dcId → setAuthKey authKey dcId w = (Ok tt, w))
  ∧ (_dcId (this w) = JNum dcId →
     setAuthKey authKey dcId w
     = (Ok tt,
        {| this := set_authKey authKey (set_connected true (this w));
           redis := <[prefix (this w) +:+ "authKey" :=
                        {| stored := toString_hex authKey;
                           EX := _sessionExp (this w) |}]> (redis w) |})).
Proof.
  split; intros H.
  - unfold setAuthKey, mbind, method_bind, get_this. cbn [fst snd].
    destruct (strict_eq (JNum dcId) (_dcId (this w))) eqn:E; [|reflexivity].
    apply strict_eq_JNum in E. contradiction.
  - unfold setAuthKey. unfold mbind at 1, method_bind at 1, get_this.
    rewrite (proj2 (strict_eq_JNum dcId (_dcId (this w))) H). cbn [negb].
    unfold mbind at 1, method_bind at 1. rewrite _connect_eval.
    destruct w as [s m]. cbn [this redis].
    destruct s as [n d pe se c dc i po tm ak]. destruct se; reflexivity.
Qed.

Lemma setAuthKey_guard_witness :
  setAuthKey ["222"; "173"]%byte 7 (world_on_dc 5) = (Ok tt, world_on_dc 5)
  ∧ redis (after (setAuthKey ["222"; "173"]%byte 7) (world_on_dc 7))
      !! "s:authKey"%string
    = Some {| stored := "dead"; EX := None |}.
Proof.
  split.
  - apply (proj1 (setAuthKey_guard (world_on_dc 5) ["222"; "173"]%byte 7)).
    vm_compute. congruence.
  - unfold after.
    rewrite (proj2 (setAuthKey_guard (world_on_dc 7) ["222"; "173"]%byte 7));
      [|vm_compute; reflexivity].
    cbn [snd redis]. apply lookup_insert_eq.
Defined.

(** C8. [delete()] succeeds on every store; afterwards no key that starts
    with [<name><delim>] is left and every other key is as before. So a
    store without such keys is unchanged, and the keys of another session
    are untouched when the delimiter's characters occur in neither session
    name. *)
Theorem delete_prefix_frame (w : world) :
  ∃ w',
    Session.delete w = (Ok tt, w')
    ∧ (∀ k, redis w' !! k
            = if startsWith k (prefix (this w)) then None else redis w !! k)
    ∧ ((∀ k, startsWith k (prefix (this w)) = true → redis w !! k = None) →
       redis w' = redis w)
    ∧ (∀ other k,
         free_of (_sessionDelim (this w)) (sessionName (this w)) →
         free_of (_sessionDelim (this w)) other →
         _sessionDelim (this w) ≠ ""%string →
         other ≠ sessionName (this w) →
         startsWith k (other +:+ _sessionDelim (this w)) = true →
         redis w' !! k = redis w !! k).
Proof.
  destruct (delete_lookup w) as (w' & Hd & _ & Hl).
  exists w'. split; [exact Hd|]. split; [exact Hl|]. split.
  - intros Hnone. apply map_eq. intros k. rewrite Hl.
    destruct (startsWith k (prefix (this w))) eqn:E; [|reflexivity].
    symmetry. now apply Hnone.
  - intros other k Hs Ho Hd' Hne Hk. rewrite Hl.
    destruct (startsWith k (prefix (this w))) eqn:E; [|reflexivity].
    exfalso. apply Hne. symmetry.
    exact (prefix_app_free _ _ _ k Hd' Hs Ho E Hk).
Qed.

Lemma delete_prefix_frame_witness :
  (∃ w', Session.delete example_world = (Ok tt, w')
         ∧ redis w' = redis example_world)
  ∧ (∃ w', Session.delete shared_world = (Ok tt, w')
           ∧ redis w' !! "s:dcId"%string = None
           ∧ redis w' !! "s:peer:123"%string = None
           ∧ redis w' !! "t:dcId"%string = redis shared_world !! "t:dcId"%string).
Proof.
  split.
  - destruct (delete_prefix_frame example_world) as (w' & Hd & _ & He & _).
    exists w'. split; [exact Hd|]. apply He. intros k _. apply lookup_empty.
  - destruct (delete_prefix_frame shared_world) as (w' & Hd & Hl & _ & Ho).
    exists w'. split; [exact Hd|].
    split; [apply (Hl "s:dcId"%string)|].
    split; [apply (Hl "s:peer:123"%string)|].
    apply (Ho "t"%string "t:dcId"%string).
    + simpl. intuition discriminate.
    + simpl. intuition discriminate.
    + discriminate.
    + discriminate.
    + reflexivity.
Defined.

(** * Facts about the rest of the session *)

Section RestFacts.
Import Session Rest More.

Lemma method_bind_Ok {A B} (m : method A) (f : A → method B) w a w' :
  m w = (Ok a, w') → (m ≫= f) w = f a w'.
Proof. intros H. unfold mbind, method_bind. now rewrite H. Qed.

Lemma method_bind_Throw {A B} (m : method A) (f : A → method B) w e w' :
  m w = (Throw e, w') → (m ≫= f) w = (Throw e, w').
Proof. intros H. unfold mbind, method_bind. now rewrite H. Qed.

Lemma action_bind_Ok {A B} (m : action A) (f : A → action B) st a st' :
  m st = (Ok a, st') → (m ≫= f) st = f a st'.
Proof. intros H. unfold mbind, action_bind. now rewrite H. Qed.


Lemma peer_key_inj s i j : peer_key s i = peer_key s j → i = j.
Proof.
  unfold peer_key. intros H.
  do 3 apply append_inj_r in H. now apply pretty_Z_inj in H.
Qed.

Lemma chat_key_inj s i j : chat_key s i = chat_key s j → i = j.
Proof.
  unfold chat_key. intros H.
  do 3 apply append_inj_r in H. now apply pretty_Z_inj in H.
Qed.


(** X11. The two scanning lookups never answer: [getPeerByUsername] and
    [getPeerByPhoneNumber] throw a TypeError for every argument and every
    store (the asynchronous scan is iterated with a plain [for ... of]),
    and leave the store as it was. *)
Theorem scanning_lookups_throw (w : world) (query : string) :
  getPeerByUsername query w
  = (Throw TypeError, {| this := set_connected true (this w); redis := redis w |})
  ∧ getPeerByPhoneNumber query w
    = (Throw TypeError, {| this := set_connected true (this w); redis := redis w |}).
Proof.
  unfold getPeerByUsername, getPeerByPhoneNumber.
  rewrite !(method_bind_Ok _ _ _ _ _ (_connect_eval w)). split; reflexivity.
Qed.


Lemma written_other {X} (key_of : X → string) (entry_of : X → entry) batch m k :
  k ∉ key_of <$> batch → written key_of entry_of m batch !! k = m !! k.
Proof.
  unfold written. revert m. induction batch as [|x batch IH]; intros m Hk.
  - reflexivity.
  - cbn [foldl]. rewrite fmap_cons, not_elem_of_cons in Hk. destruct Hk as [Hx Hk].
    rewrite IH by exact Hk. now apply lookup_insert_ne.
Qed.

Lemma written_last {X} (key_of : X → string) (entry_of : X → entry)
    before x later m :
  key_of x ∉ key_of <$> later →
  written key_of entry_of m (before ++ x :: later) !! key_of x = Some (entry_of x).
Proof.
  intros Hx. unfold written. rewrite foldl_app. cbn [foldl].
  fold (written key_of entry_of
          (<[key_of x := entry_of x]> (foldl (λ m x, <[key_of x := entry_of x]> m) m before))
          later).
  rewrite written_other by exact Hx. apply lookup_insert_eq.
Qed.

Lemma _set_eval key val exp w :
  _set key val exp w
  = (Ok (JStr "OK"),
     {| this := this w; redis := <[key := {| stored := val; EX := exp |}]> (redis w) |}).
Proof. destruct exp; reflexivity. Qed.

Lemma updatePeers_each_eval s peers w :
  Forall encodable peers →
  updatePeers_each s peers w
  = (Ok tt,
     {| this := this w;
        redis := written (λ p, peer_key s (peer_id p)) (peer_entry s) (redis w) peers |}).
Proof.
  intros H. revert w. induction H as [|p peers [bytes Hp] _ IH]; intros w.
  - destruct w. reflexivity.
  - cbn [updatePeers_each].
    rewrite (method_bind_Ok _ _ w bytes w) by (unfold lift; now rewrite Hp).
    erewrite method_bind_Ok by apply _set_eval.
    rewrite IH. cbn [this redis written foldl].
    assert (peer_entry s p = {| stored := toString_hex bytes; EX := _peerExp s |})
      as -> by (unfold peer_entry; now rewrite Hp).
    reflexivity.
Qed.

Lemma updatePeers_eval peers w :
  Forall encodable peers →
  updatePeers peers w
  = (Ok tt,
     {| this := set_connected true (this w);
        redis := written (λ p, peer_key (this w) (peer_id p)) (peer_entry (this w))
                         (redis w) peers |}).
Proof.
  intros H. unfold updatePeers.
  rewrite (method_bind_Ok _ _ _ _ _ (_connect_eval w)).
  erewrite method_bind_Ok by reflexivity.
  now rewrite updatePeers_each_eval.
Qed.

(** X8. [updatePeers] of a batch whose tuples can all be written succeeds,
    and the last tuple of each id wins: its key holds the hex string of its
    bytes with the peer expiry, whatever was written for that id before;
    keys of no tuple of the batch are as before. *)
Theorem updatePeers_last_write_wins (w : world) (before later : list Peer)
    (p : Peer) :
  Forall encodable (before ++ p :: later) →
  peer_id p ∉ peer_id <$> later →
  ∃ w' bytes,
    updatePeers (before ++ p :: later) w = (Ok tt, w')
    ∧ buildBytesFromPeer p = Ok bytes
    ∧ redis w' !! peer_key (this w) (peer_id p)
      = Some {| stored := toString_hex bytes; EX := _peerExp (this w) |}
    ∧ ∀ k, (∀ q, q ∈ before ++ p :: later → k ≠ peer_key (this w) (peer_id q)) →
           redis w' !! k = redis w !! k.
Proof.
  intros Hall Hlast.
  assert (encodable p) as [bytes Hp].
  { rewrite Forall_forall in Hall. apply Hall. rewrite elem_of_app, elem_of_cons. auto. }
  eexists _, bytes. split; [now apply updatePeers_eval|].
  split; [exact Hp|]. cbn [redis]. split.
  - rewrite (written_last (λ p, peer_key (this w) (peer_id p))).
    + unfold peer_entry. now rewrite Hp.
    + intros Hin. apply Hlast.
      apply list_elem_of_fmap in Hin as (q & Hq & Hin).
      apply peer_key_inj in Hq. rewrite Hq. now apply list_elem_of_fmap_2.
  - intros k Hk. apply written_other. intros Hin.
    apply list_elem_of_fmap in Hin as (q & Hq & Hin). now apply (Hk q).
Qed.

Lemma updatePeers_last_write_wins_witness :
  ∃ w' bytes,
    updatePeers ([example_peer] ++ phone_only_peer :: []) example_world = (Ok tt, w')
    ∧ buildBytesFromPeer phone_only_peer = Ok bytes
    ∧ redis w' !! peer_key (this example_world) 123
      = Some {| stored := toString_hex bytes; EX := None |}
    ∧ ∀ k, (∀ q, q ∈ [example_peer] ++ phone_only_peer :: [] →
                 k ≠ peer_key (this example_world) (peer_id q)) →
           redis w' !! k = redis example_world !! k.
Proof.
  apply (updatePeers_last_write_wins example_world [example_peer] [] phone_only_peer).
  - repeat constructor; eexists; vm_compute; reflexivity.
  - apply not_elem_of_nil.
Defined.

Lemma updatePeers_each_failure s ok bad rest e w :
  Forall encodable ok →
  buildBytesFromPeer bad = Throw e →
  updatePeers_each s (ok ++ bad :: rest) w
  = (Throw e, snd (updatePeers_each s ok w)).
Proof.
  intros Hok Hbad. revert w.
  induction Hok as [|p ok [bytes Hp] _ IH]; intros w.
  - cbn [app updatePeers_each].
    erewrite method_bind_Throw; [reflexivity|]. unfold lift. now rewrite Hbad.
  - cbn [app updatePeers_each].
    rewrite !(method_bind_Ok _ _ w bytes w) by (unfold lift; now rewrite Hp).
    erewrite !method_bind_Ok by apply _set_eval.
    apply IH.
Qed.

(** X9. A tuple that cannot be written stops [updatePeers] with its
    exception: the tuples before it are stored as by [updatePeers] of them
    alone, and nothing is written for the tuples after it. *)
Theorem updatePeers_partial_failure (w : world) (ok rest : list Peer)
    (bad : Peer) (e : error) :
  Forall encodable ok →
  buildBytesFromPeer bad = Throw e →
  updatePeers (ok ++ bad :: rest) w = (Throw e, snd (updatePeers ok w)).
Proof.
  intros Hok Hbad. unfold updatePeers.
  rewrite !(method_bind_Ok _ _ _ _ _ (_connect_eval w)).
  erewrite !method_bind_Ok by reflexivity.
  now apply updatePeers_each_failure.
Qed.

Lemma updatePeers_partial_failure_witness :
  updatePeers ([phone_only_peer] ++ unwritable_peer :: [example_peer]) example_world
  = (Throw RangeError, snd (updatePeers [phone_only_peer] example_world)).
Proof.
  apply (updatePeers_partial_failure example_world [phone_only_peer] [example_peer]
           unwritable_peer RangeError).
  - repeat constructor; eexists; vm_compute; reflexivity.
  - vm_compute. reflexivity.
Defined.


Lemma updateSecretChats_each_eval s chats w :
  Forall SecretChat_valid chats →
  updateSecretChats_each s chats w
  = (Ok tt,
     {| this := this w;
        redis := written (λ c, chat_key s (id c)) (chat_entry s) (redis w) chats |}).
Proof.
  intros H. revert w. induction H as [|c chats Hc _ IH]; intros w.
  - destruct w. reflexivity.
  - destruct (secretChat_through_layout c Hc) as (He & _).
    cbn [updateSecretChats_each].
    rewrite (method_bind_Ok _ _ w (secretChat_layout (normalize c)) w)
      by (unfold lift; now rewrite He).
    erewrite method_bind_Ok by apply _set_eval.
    rewrite IH. cbn [this redis written foldl].
    assert (chat_entry s c
            = {| stored := toString_hex (secretChat_layout (normalize c));
                 EX := _peerExp s |})
      as -> by (unfold chat_entry; now rewrite He).
    reflexivity.
Qed.

(** X7. [updateSecretChats] of a batch of valid chats succeeds, and for the
    last chat of each id its key holds, with the peer expiry, a hex string
    that decodes to that chat (with its zero-valued optional fields taken
    away); keys of no chat of the batch are as before. *)
Theorem updateSecretChats_stores_decodable (w : world)
    (before later : list SecretChat) (c : SecretChat) :
  Forall SecretChat_valid (before ++ c :: later) →
  id c ∉ id <$> later →
  ∃ w' e,
    updateSecretChats (before ++ c :: later) w = (Ok tt, w')
    ∧ redis w' !! chat_key (this w) (id c) = Some e
    ∧ EX e = _peerExp (this w)
    ∧ (Buffer_from_hex (JStr (stored e)) ≫= buildSecretChatFromBytes)
      = Ok (normalize c)
    ∧ ∀ k, (∀ q, q ∈ before ++ c :: later → k ≠ chat_key (this w) (id q)) →
           redis w' !! k = redis w !! k.
Proof.
  intros Hall Hlast.
  assert (SecretChat_valid c) as Hc.
  { rewrite Forall_forall in Hall. apply Hall. rewrite elem_of_app, elem_of_cons. auto. }
  destruct (secretChat_through_layout c Hc) as (He & Hd).
  eexists _, (chat_entry (this w) c). split.
  { unfold updateSecretChats.
    rewrite (method_bind_Ok _ _ _ _ _ (_connect_eval w)).
    erewrite method_bind_Ok by reflexivity.
    now rewrite updateSecretChats_each_eval. }
  cbn [redis]. split; [|split; [reflexivity|split]].
  - apply (written_last (λ c, chat_key (this w) (id c))).
    intros Hin. apply Hlast.
    apply list_elem_of_fmap in Hin as (q & Hq & Hin).
    apply chat_key_inj in Hq. rewrite Hq. now apply list_elem_of_fmap_2.
  - unfold chat_entry. rewrite He. cbn [stored default from_option].
    unfold Buffer_from_hex. rewrite hex_bytes_toString_hex. exact Hd.
  - intros k Hk. apply written_other. intros Hin.
    apply list_elem_of_fmap in Hin as (q & Hq & Hin). now apply (Hk q).
Qed.

Lemma updateSecretChats_stores_decodable_witness :
  ∃ w' e,
    updateSecretChats ([example_chat] ++ zero_ttl_chat :: []) example_world = (Ok tt, w')
    ∧ redis w' !! chat_key (this example_world) 42 = Some e
    ∧ EX e = None
    ∧ (Buffer_from_hex (JStr (stored e)) ≫= buildSecretChatFromBytes)
      = Ok (normalize zero_ttl_chat)
    ∧ ∀ k, (∀ q, q ∈ [example_chat] ++ zero_ttl_chat :: [] →
                 k ≠ chat_key (this example_world) (id q)) →
           redis w' !! k = redis example_world !! k.
Proof.
  apply (updateSecretChats_stores_decodable example_world [example_chat] [] zero_ttl_chat).
  - assert (SecretChat_valid example_chat ∧ SecretChat_valid zero_ttl_chat)
      as [H1 H2]
      by (split; constructor;
          first [vm_compute; split; congruence | vm_compute; reflexivity]).
    constructor; [exact H1|]. constructor; [exact H2|]. constructor.
  - apply not_elem_of_nil.
Defined.


(** ** [load] *)

Lemma digit_value_char x : (x < 10)%N → digit_value (pretty_N_char x) = Some x.
Proof.
  intros H.
  assert (x = 0 ∨ x = 1 ∨ x = 2 ∨ x = 3 ∨ x = 4 ∨ x = 5 ∨ x = 6 ∨ x = 7
          ∨ x = 8 ∨ x = 9)%N as Hx by lia.
  repeat (destruct Hx as [->|Hx]; [reflexivity|]). subst. reflexivity.
Qed.

Lemma digits_value_pretty_go x s :
  digits_value (pretty_N_go x s) 0 = digits_value s x.
Proof.
  revert s. induction (N.lt_wf_0 x) as [x _ IH]; intros s.
  destruct (N.eq_dec x 0%N) as [->|Hx]; [now rewrite pretty_N_go_0|].
  rewrite pretty_N_go_step by lia.
  rewrite IH by (apply N.div_lt; lia).
  cbn [digits_value]. rewrite digit_value_char by (apply N.mod_lt; lia).
  f_equal. rewrite (N.div_mod x 10) at 3 by lia. reflexivity.
Qed.

Lemma digits_value_pretty (p : positive) :
  digits_value (pretty (N.pos p)) 0 = Some (N.pos p).
Proof.
  unfold pretty, pretty_N. rewrite decide_False by discriminate.
  now rewrite digits_value_pretty_go.
Qed.

Lemma parse_integer_pretty (n : Z) : parse_integer (pretty n) = Some n.
Proof.
  destruct n as [|p|p]; [reflexivity| |].
  - unfold parse_integer, pretty, pretty_Z, pretty, pretty_positive.
    now rewrite digits_value_pretty.
  - unfold parse_integer, pretty, pretty_Z, pretty, pretty_positive.
    rewrite append_cons, append_nil_l. cbn [digits_value digit_value].
    change (digit_value "-") with (@None N). cbv iota.
    now rewrite digits_value_pretty.
Qed.

Lemma numeral_of_pretty (n : Z) : numeral_of (pretty n) = Some n.
Proof.
  unfold numeral_of. rewrite parse_integer_pretty.
  now rewrite String.eqb_refl.
Qed.


Section Load.
Variable Number_other : string → value.
Variable BigInt_other : string → result value.

Lemma Number_numeral (n : Z) :
  Z.abs n <= 2 ^ 53 - 1 → Number_ Number_other (pretty n) = JNum n.
Proof.
  intros H. unfold Number_. rewrite numeral_of_pretty.
  now rewrite (proj2 (Z.leb_le _ _) H).
Qed.

Lemma BigInt_numeral (n : Z) : BigInt_ BigInt_other (pretty n) = Ok (JBigInt n).
Proof. unfold BigInt_. now rewrite numeral_of_pretty. Qed.

Lemma load_field_eval v set w b :
  load_field v set {| inner := w; base := b |}
  = (Ok tt, {| inner := {| this := when (truthy v) set (this w); redis := redis w |};
               base := b |}).
Proof. destruct w. unfold load_field, when. destruct (truthy v); reflexivity. Qed.

Lemma load_base_eval v set w b :
  load_base v set {| inner := w; base := b |}
  = (Ok tt, {| inner := w; base := when (truthy v) set b |}).
Proof. unfold load_base, when. destruct (truthy v); reflexivity. Qed.

Lemma call_connect_eval w b :
  call _connect {| inner := w; base := b |}
  = (Ok tt, {| inner := {| this := set_connected true (this w); redis := redis w |};
               base := b |}).
Proof. unfold call. cbn [inner base]. now rewrite _connect_eval. Qed.

Lemma call_get_eval key w b :
  call (redis_get key) {| inner := w; base := b |}
  = (Ok (JPromise (fetched (redis w) key)), {| inner := w; base := b |}).
Proof. destruct w. reflexivity. Qed.

Lemma call_get_this_eval w b :
  call get_this {| inner := w; base := b |} = (Ok (this w), {| inner := w; base := b |}).
Proof. destruct w. reflexivity. Qed.

Lemma load_authKey_eval (m : gmap string entry) key w b :
  (if truthy (fetched m key)
   then key ← returned (Buffer_from_hex (fetched m key));
        call (update_this (set_authKey key))
   else mret tt) {| inner := w; base := b |}
  = (Ok tt,
     {| inner := {| this := when (truthy (fetched m key))
                                 (set_loaded_authKey (fetched m key)) (this w);
                    redis := redis w |};
        base := b |}).
Proof.
  destruct w. unfold fetched, when. destruct (m !! key) as [e|]; [|reflexivity].
  destruct (truthy (JStr (stored e))); reflexivity.
Qed.

Lemma load_eval (st : state) :
  let s := this (inner st) in
  let m := redis (inner st) in
  let v field := fetched m (prefix s +:+ field) in
  let b1 := when (truthy (v "apiId"))
                 (set_apiId (Number_ Number_other (String_ (v "apiId"))))
                 (base st) in
  let b3 b := when (truthy (v "isBot"))
                   (set_isBot (JBool (strict_eq (v "isBot") (JStr "true")))) b in
  let w1 := {| this := loaded_this Number_other s m; redis := m |} in
  load Number_other BigInt_other st
  = if truthy (v "userId")
    then match BigInt_ BigInt_other (String_ (v "userId")) with
         | Ok u => (Ok tt, {| inner := w1; base := b3 (set_userId u b1) |})
         | Throw e => (Throw e, {| inner := w1; base := b1 |})
         end
    else (Ok tt, {| inner := w1; base := b3 b1 |}).
Proof.
  destruct st as [[s m] b]. cbv zeta. cbn [this inner redis base].
  unfold load, loaded_this. cbv zeta.
  rewrite (action_bind_Ok _ _ _ _ _ (call_connect_eval _ _)).
  rewrite (action_bind_Ok _ _ _ _ _ (call_get_this_eval _ _)).
  cbv beta zeta. cbn [this redis].
  change (prefix (set_connected true s)) with (prefix s).
  do 8 (rewrite (action_bind_Ok _ _ _ _ _ (call_get_eval _ _ _));
        cbv beta zeta; cbn [await this redis]).
  do 3 (rewrite (action_bind_Ok _ _ _ _ _ (load_field_eval _ _ _ _)); cbn [this redis]).
  rewrite (action_bind_Ok _ _ _ _ _ (load_authKey_eval _ _ _ _)); cbn [this redis].
  rewrite (action_bind_Ok _ _ _ _ _ (load_field_eval _ _ _ _)); cbn [this redis].
  rewrite (action_bind_Ok _ _ _ _ _ (load_base_eval _ _ _ _)).
  destruct (truthy (fetched m (prefix s +:+ "userId"))).
  - unfold mbind at 1, action_bind at 1.
    unfold mbind at 1, action_bind at 1, returned.
    destruct (BigInt_ BigInt_other _) as [u|e]; [|reflexivity].
    cbn [update_base inner base].
    rewrite (action_bind_Ok _ _ _ _ _ (load_base_eval _ _ _ _)). reflexivity.
  - erewrite action_bind_Ok by reflexivity.
    rewrite (action_bind_Ok _ _ _ _ _ (load_base_eval _ _ _ _)). reflexivity.
Qed.


Lemma load_store (st : state) :
  redis (inner (after' (load Number_other BigInt_other) st)) = redis (inner st).
Proof.
  unfold after'. rewrite load_eval. cbv zeta.
  destruct (truthy _); [destruct (BigInt_ _ _)|]; reflexivity.
Qed.

Lemma truthy_numeral (n : Z) : truthy (JStr (pretty n)) = true.
Proof.
  cbn [truthy]. destruct (String.eqb_spec (pretty n) "") as [E|]; [|reflexivity].
  pose proof (numeral_of_pretty n) as H. rewrite E in H. discriminate.
Qed.

Lemma startsWith_prefix (p field : string) : startsWith (p +:+ field) p = true.
Proof.
  unfold startsWith. induction p as [|c p IH]; [now destruct field|].
  rewrite append_cons. cbn [String.prefix].
  destruct (ascii_dec c c); [exact IH|congruence].
Qed.

Lemma setAddress_store w dcId ip port testMode :
  redis (after (setAddress dcId ip port testMode) w)
  = <[prefix (this w) +:+ "testMode" :=
        {| stored := String_ (JBool testMode); EX := _sessionExp (this w) |}]>
    (<[prefix (this w) +:+ "port" :=
        {| stored := String_ port; EX := _sessionExp (this w) |}]>
     (<[prefix (this w) +:+ "ip" :=
        {| stored := ip; EX := _sessionExp (this w) |}]>
      (<[prefix (this w) +:+ "dcId" :=
        {| stored := String_ dcId; EX := _sessionExp (this w) |}]>
       (redis w)))).
Proof.
  unfold after, setAddress.
  rewrite (method_bind_Ok _ _ _ _ _ (_connect_eval w)).
  destruct w as [s m]. cbn [this redis].
  destruct s as [n d pe se c dc i po tm ak]. destruct se; reflexivity.
Qed.

Ltac other_field :=
  let H := fresh in
  intros H; apply append_inj_r in H; discriminate.

Lemma load_this (st : state) :
  this (inner (after' (load Number_other BigInt_other) st))
  = loaded_this Number_other (this (inner st)) (redis (inner st)).
Proof.
  unfold after'. rewrite load_eval. cbv zeta.
  destruct (truthy _); [destruct (BigInt_ _ _)|]; reflexivity.
Qed.

Lemma load_skips (st : state) :
  Forall (λ key, truthy (fetched (redis (inner st)) key) = false)
         (session_keys (this (inner st))) →
  load Number_other BigInt_other st
  = (Ok tt,
     {| inner := {| this := set_connected true (this (inner st));
                    redis := redis (inner st) |};
        base := base st |}).
Proof.
  unfold session_keys. rewrite !fmap_cons, !Forall_cons.
  intros (Hip & Hdc & Hpo & Hak & Htm & Hap & Hus & Hib & _).
  rewrite load_eval. cbv zeta. unfold loaded_this. cbv zeta.
  rewrite Hip, Hdc, Hpo, Hak, Htm, Hap, Hus, Hib. reflexivity.
Qed.

(** X12. [load] never writes to the server, whatever it finds and even
    when it throws; and when none of its eight keys holds a non-empty
    string it succeeds and leaves every in-memory field as it was (the
    object is connected, nothing else). *)
Theorem load_finds_nothing (st : state) :
  redis (inner (after' (load Number_other BigInt_other) st)) = redis (inner st)
  ∧ (Forall (λ key, truthy (fetched (redis (inner st)) key) = false)
            (session_keys (this (inner st))) →
     load Number_other BigInt_other st
     = (Ok tt,
        {| inner := {| this := set_connected true (this (inner st));
                       redis := redis (inner st) |};
           base := base st |})).
Proof. split; [apply load_store | apply load_skips]. Qed.

(** X13. What [setAddress] stored, [load] restores: after
    [setAddress(dcId, ip, port, testMode)] with integers [dcId] and [port]
    and a non-empty [ip], [load] on any object of the same session name and
    delimiter sets [_dcId], [_ip], [_port] and [_testMode] to those four
    values. *)
Theorem load_after_setAddress (w : world) (b : BaseFields) (s' : RedisSession)
    (dcId port : Z) (ip : string) (testMode : bool) :
  prefix s' = prefix (this w) →
  ip ≠ ""%string →
  Z.abs dcId <= 2 ^ 53 - 1 → Z.abs port <= 2 ^ 53 - 1 →
  let stored := redis (after (setAddress (JNum dcId) ip (JNum port) testMode) w) in
  let loaded :=
    this (inner (after' (load Number_other BigInt_other)
                        {| inner := {| this := s'; redis := stored |}; base := b |})) in
  _dcId loaded = JNum dcId ∧ _ip loaded = JStr ip
  ∧ _port loaded = JNum port ∧ _testMode loaded = JBool testMode.
Proof.
  intros Hp Hip Hdc Hpo. cbv zeta. rewrite load_this. cbn [this inner redis].
  rewrite setAddress_store. unfold loaded_this. cbv zeta. rewrite Hp.
  unfold fetched.
  rewrite lookup_insert_eq.
  rewrite (lookup_insert_ne _ _ (prefix (this w) +:+ "port")) by other_field.
  rewrite lookup_insert_eq.
  rewrite !(lookup_insert_ne _ _ (prefix (this w) +:+ "dcId")) by other_field.
  rewrite lookup_insert_eq.
  rewrite !(lookup_insert_ne _ _ (prefix (this w) +:+ "ip")) by other_field.
  rewrite lookup_insert_eq.
  cbn [Session.stored String_].
  rewrite !truthy_numeral, !Number_numeral by assumption.
  assert (truthy (JStr ip) = true) as ->.
  { cbn [truthy]. destruct (String.eqb_spec ip ""); [contradiction|reflexivity]. }
  assert (truthy (JStr (if testMode then "true" else "false")) = true) as ->
    by (destruct testMode; reflexivity).
  assert (strict_eq (JStr (if testMode then "true" else "false")) (JStr "true")
          = testMode) as -> by (destruct testMode; reflexivity).
  unfold when.
  destruct (truthy
              match _ !! (prefix (this w) +:+ "authKey") with
              | Some e => JStr (Session.stored e)
              | None => JNull
              end);
    unfold set_loaded_authKey; try destruct (authKey_of _);
    repeat split; reflexivity.
Qed.

Lemma setAuthKey_store w authKey dcId :
  _dcId (this w) = JNum dcId →
  redis (after (setAuthKey authKey dcId) w)
  = <[prefix (this w) +:+ "authKey" :=
        {| stored := toString_hex authKey; EX := _sessionExp (this w) |}]> (redis w).
Proof.
  intros H. unfold after, setAuthKey. unfold mbind at 1, method_bind at 1, get_this.
  rewrite (proj2 (strict_eq_JNum dcId (_dcId (this w))) H). cbn [negb].
  rewrite (method_bind_Ok _ _ _ _ _ (_connect_eval w)).
  destruct w as [s m]. cbn [this redis].
  destruct s as [n d pe se c dc i po tm ak]. destruct se; reflexivity.
Qed.

(** X14. What [setAuthKey] stored, [load] restores: after a
    [setAuthKey(authKey, dcId)] that passed the guard, [load] on any object
    of the same session name and delimiter sets [_authKey] to the bytes of
    [authKey], provided the key is not empty; an empty key is stored as the
    empty string, which [load] skips, leaving [_authKey] as it was. *)
Theorem load_after_setAuthKey (w : world) (b : BaseFields) (s' : RedisSession)
    (authKey : list byte) (dcId : Z) :
  prefix s' = prefix (this w) →
  _dcId (this w) = JNum dcId →
  let stored := redis (after (setAuthKey authKey dcId) w) in
  let loaded :=
    this (inner (after' (load Number_other BigInt_other)
                        {| inner := {| this := s'; redis := stored |}; base := b |})) in
  _authKey loaded = if decide (authKey = []) then _authKey s' else Some authKey.
Proof.
  intros Hp Hdc. cbv zeta. rewrite load_this. cbn [this inner redis].
  rewrite (setAuthKey_store _ _ _ Hdc). unfold loaded_this. cbv zeta. rewrite Hp.
  unfold fetched at 3 4.
  rewrite lookup_insert_eq. cbn [Session.stored].
  unfold when, set_loaded_authKey, authKey_of.
  rewrite hex_bytes_toString_hex.
  destruct authKey as [|k key].
  - rewrite decide_True by reflexivity. cbn [toString_hex truthy String.eqb negb].
    repeat match goal with
    | |- context [if truthy ?v then _ else _] => destruct (truthy v)
    end; reflexivity.
  - rewrite decide_False by discriminate. cbn [toString_hex truthy String.eqb negb].
    repeat match goal with
    | |- context [if truthy ?v then _ else _] => destruct (truthy v)
    end; reflexivity.
Qed.

Lemma setApiId_eval (st : state) (apiId : Z) :
  setApiId apiId st
  = (Ok tt,
     {| inner := {| this := set_connected true (this (inner st));
                    redis := <[prefix (this (inner st)) +:+ "apiId" :=
                                 {| stored := pretty apiId;
                                    EX := _sessionExp (this (inner st)) |}]>
                             (redis (inner st)) |};
        base := set_apiId (JNum apiId) (base st) |}).
Proof.
  destruct st as [[s m] b]. unfold setApiId.
  rewrite (action_bind_Ok _ _ _ _ _ (call_connect_eval _ _)).
  rewrite (action_bind_Ok _ _ _ _ _ (call_get_this_eval _ _)).
  cbv zeta. erewrite action_bind_Ok by reflexivity.
  unfold mbind, action_bind, call. cbn [inner base].
  rewrite _set_eval. reflexivity.
Qed.

Lemma setUserId_eval (st : state) (userId : Z) :
  setUserId userId st
  = (Ok tt,
     {| inner := {| this := set_connected true (this (inner st));
                    redis := <[prefix (this (inner st)) +:+ "userId" :=
                                 {| stored := pretty userId;
                                    EX := _sessionExp (this (inner st)) |}]>
                             (redis (inner st)) |};
        base := set_userId (JBigInt userId) (base st) |}).
Proof.
  destruct st as [[s m] b]. unfold setUserId.
  rewrite (action_bind_Ok _ _ _ _ _ (call_connect_eval _ _)).
  rewrite (action_bind_Ok _ _ _ _ _ (call_get_this_eval _ _)).
  cbv zeta. erewrite action_bind_Ok by reflexivity.
  unfold mbind, action_bind, call. cbn [inner base].
  rewrite _set_eval. reflexivity.
Qed.

Lemma setIsBot_eval (st : state) (isbot : bool) :
  setIsBot isbot st
  = (Ok tt,
     {| inner := {| this := set_connected true (this (inner st));
                    redis := <[prefix (this (inner st)) +:+ "isBot" :=
                                 {| stored := if isbot then "true" else "false";
                                    EX := _sessionExp (this (inner st)) |}]>
                             (redis (inner st)) |};
        base := set_isBot (JBool isbot) (base st) |}).
Proof.
  destruct st as [[s m] b]. unfold setIsBot.
  rewrite (action_bind_Ok _ _ _ _ _ (call_connect_eval _ _)).
  rewrite (action_bind_Ok _ _ _ _ _ (call_get_this_eval _ _)).
  cbv zeta. erewrite action_bind_Ok by reflexivity.
  unfold mbind, action_bind, call. cbn [inner base].
  rewrite _set_eval. destruct isbot; reflexivity.
Qed.

(** X15. What [setApiId], [setUserId] and [setIsBot] stored, [load]
    restores: after the three calls, [load] on any object of the same
    session name and delimiter succeeds and sets [_apiId], [_userId] and
    [_isBot] to the three values. *)
Theorem load_after_setters (st : state) (b : BaseFields) (s' : RedisSession)
    (apiId userId : Z) (isBot : bool) :
  prefix s' = prefix (this (inner st)) →
  Z.abs apiId <= 2 ^ 53 - 1 →
  let stored :=
    redis (inner (after' (setIsBot isBot)
                    (after' (setUserId userId) (after' (setApiId apiId) st)))) in
  load Number_other BigInt_other
       {| inner := {| this := s'; redis := stored |}; base := b |}
  = (Ok tt,
     {| inner := {| this := loaded_this Number_other s' stored; redis := stored |};
        base := {| _apiId := JNum apiId; _isBot := JBool isBot;
                   _userId := JBigInt userId |} |}).
Proof.
  intros Hp Ha. cbv zeta. unfold after'.
  rewrite setApiId_eval. cbn [snd]. rewrite setUserId_eval. cbn [snd].
  rewrite setIsBot_eval. cbn [snd inner this redis].
  change (prefix (set_connected true (set_connected true (this (inner st)))))
    with (prefix (this (inner st))).
  change (prefix (set_connected true (this (inner st))))
    with (prefix (this (inner st))).
  rewrite load_eval. cbv zeta. cbn [this inner redis base]. rewrite Hp.
  set (m := <[prefix (this (inner st)) +:+ "isBot" := _]> _).
  assert (fetched m (prefix (this (inner st)) +:+ "isBot")
          = JStr (if isBot then "true" else "false")) as ->.
  { unfold fetched, m. now rewrite lookup_insert_eq. }
  assert (fetched m (prefix (this (inner st)) +:+ "userId") = JStr (pretty userId))
    as ->.
  { unfold fetched, m. rewrite lookup_insert_ne by other_field.
    now rewrite lookup_insert_eq. }
  assert (fetched m (prefix (this (inner st)) +:+ "apiId") = JStr (pretty apiId))
    as ->.
  { unfold fetched, m. rewrite !lookup_insert_ne by other_field.
    now rewrite lookup_insert_eq. }
  cbn [String_]. rewrite !truthy_numeral, BigInt_numeral, Number_numeral by exact Ha.
  unfold when. destruct isBot; reflexivity.
Qed.

(** X16. After [delete()], a [load] on any object of the same session name
    and delimiter finds nothing: it succeeds and leaves every in-memory
    field as it was. *)
Theorem load_after_delete (w : world) (b : BaseFields) (s' : RedisSession) :
  prefix s' = prefix (this w) →
  ∃ w',
    Session.delete w = (Ok tt, w')
    ∧ load Number_other BigInt_other
           {| inner := {| this := s'; redis := redis w' |}; base := b |}
      = (Ok tt,
         {| inner := {| this := set_connected true s'; redis := redis w' |};
            base := b |}).
Proof.
  intros Hp. destruct (delete_lookup w) as (w' & Hd & _ & Hl).
  exists w'. split; [exact Hd|].
  apply load_skips. cbn [this inner redis]. unfold session_keys. rewrite Hp.
  rewrite Forall_fmap. apply Forall_forall. intros field _.
  unfold compose, fetched. rewrite Hl, startsWith_prefix. reflexivity.
Qed.

End Load.

(** X17. [delete()] twice is [delete()] once: the second call succeeds and
    leaves the store as the first left it. *)
Theorem delete_idempotent (w : world) :
  ∃ w1 w2,
    Session.delete w = (Ok tt, w1)
    ∧ Session.delete w1 = (Ok tt, w2)
    ∧ redis w2 = redis w1.
Proof.
  destruct (delete_lookup w) as (w1 & Hd1 & Ht1 & Hl1).
  destruct (delete_lookup w1) as (w2 & Hd2 & _ & Hl2).
  exists w1, w2. split; [exact Hd1|]. split; [exact Hd2|].
  apply map_eq. intros k. rewrite Hl2, Ht1.
  change (prefix (set_connected true (this w))) with (prefix (this w)).
  rewrite Hl1. now destruct (startsWith k (prefix (this w))).
Qed.

End RestFacts.

Import Rest More.


Lemma load_finds_nothing_witness :
  redis (inner (after' (load no_Number no_BigInt) example_state))
  = redis (inner example_state)
  ∧ load no_Number no_BigInt example_state
    = (Ok tt,
       {| inner := {| this := set_connected true (this (inner example_state));
                      redis := redis (inner example_state) |};
          base := base example_state |}).
Proof.
  split.
  - apply (proj1 (load_finds_nothing no_Number no_BigInt example_state)).
  - apply (proj2 (load_finds_nothing no_Number no_BigInt example_state)).
    repeat constructor.
Defined.

Lemma load_after_setAddress_witness :
  let stored :=
    redis (after (setAddress (JNum 2) "149.154.167.50" (JNum 443) false)
                 example_world) in
  let loaded :=
    this (inner (after' (load no_Number no_BigInt)
                        {| inner := {| this := constructor "s" None; redis := stored |};
                           base := unset_base |})) in
  _dcId loaded = JNum 2 ∧ _ip loaded = JStr "149.154.167.50"
  ∧ _port loaded = JNum 443 ∧ _testMode loaded = JBool false.
Proof.
  apply (load_after_setAddress no_Number no_BigInt example_world unset_base
           (constructor "s" None) 2 443 "149.154.167.50" false).
  - reflexivity.
  - discriminate.
  - vm_compute. congruence.
  - vm_compute. congruence.
Defined.

Lemma load_after_setAuthKey_witness :
  let stored := redis (after (setAuthKey ["222"; "173"]%byte 7) (world_on_dc 7)) in
  let loaded :=
    this (inner (after' (load no_Number no_BigInt)
                        {| inner := {| this := constructor "s" None; redis := stored |};
                           base := unset_base |})) in
  _authKey loaded = Some ["222"; "173"]%byte.
Proof.
  apply (load_after_setAuthKey no_Number no_BigInt (world_on_dc 7) unset_base
           (constructor "s" None) ["222"; "173"]%byte 7).
  - reflexivity.
  - vm_compute. reflexivity.
Defined.

Lemma load_after_setters_witness :
  let stored :=
    redis (inner (after' (setIsBot true)
                    (after' (setUserId 777000) (after' (setApiId 12345) example_state)))) in
  load no_Number no_BigInt
       {| inner := {| this := constructor "s" None; redis := stored |};
          base := unset_base |}
  = (Ok tt,
     {| inner := {| this := loaded_this no_Number (constructor "s" None) stored;
                    redis := stored |};
        base := {| _apiId := JNum 12345; _isBot := JBool true;
                   _userId := JBigInt 777000 |} |}).
Proof.
  apply (load_after_setters no_Number no_BigInt example_state unset_base
           (constructor "s" None) 12345 777000 true).
  - reflexivity.
  - vm_compute. congruence.
Defined.

Lemma load_after_delete_witness :
  ∃ w',
    Session.delete shared_world = (Ok tt, w')
    ∧ load no_Number no_BigInt
           {| inner := {| this := constructor "s" None; redis := redis w' |};
              base := unset_base |}
      = (Ok tt,
         {| inner := {| this := set_connected true (constructor "s" None);
                        redis := redis w' |};
            base := unset_base |}).
Proof.
  apply (load_after_delete no_Number no_BigInt shared_world unset_base
           (constructor "s" None)).
  reflexivity.
Defined.
